(** * Atari-Go: the board, group and capture engine of [Atari-Go.py]

    A shallow embedding of the game logic of [src/Atari-Go.py] (the module
    functions [has_no_liberties], [get_stone_groups], [is_valid_move], the
    game methods of [class Game] and the form of [registration]), followed
    by the properties stated about it.

    Conventions of the embedding.
    - The board is the square numpy array [np.zeros((size, size))], indexed
      [board[col, row]]; it is a list of rows of cell values.  The only
      values the program ever stores are 0 (empty), 1 (black) and 2 (white);
      the array keeps them as floats, which the program only compares with
      [==], so a cell is an integer here.
    - Indexing follows numpy: an index [i] with [-n <= i < n] is accepted,
      a negative one counting from the end, anything else raises
      [IndexError], which is [None] here.
    - Python sets of positions are [gset pos]; iterating a set is iterating
      [elements].
    - [prisoners] is a [collections.defaultdict(int)]: a [gmap] whose read
      access materialises a missing key with value 0.
    - Everything pygame does (drawing, the sound, the message screen) is
      recorded as a list of [effect]s next to the new state.
    - An exception that ends the program ([IndexError], [ZeroDivisionError])
      is [None]. *)

From stdpp Require Import gmap strings list relations.

Open Scope Z_scope.

(** ** The numpy board *)

Abbreviation pos := (Z * Z)%type.
Abbreviation ndarray := (list (list Z)).

(** [board.shape[0]]. *)
Definition shape0 (b : ndarray) : Z := Z.of_nat (length b).

(** Every row of the array is as long as the array has rows. *)
Definition square (b : ndarray) : Prop :=
  Forall (λ r : list Z, length r = length b) b.

(** numpy's treatment of one index against an axis of length [n]. *)
Definition norm_index (n i : Z) : option nat :=
  if bool_decide (0 ≤ i < n) then Some (Z.to_nat i)
  else if bool_decide (- n ≤ i < 0) then Some (Z.to_nat (n + i))
  else None.

(** [board[x, y]]. *)
Definition getitem (b : ndarray) (p : pos) : option Z :=
  i ← norm_index (shape0 b) p.1;
  r ← b !! i;
  j ← norm_index (Z.of_nat (length r)) p.2;
  r !! j.

(** [board[x, y] = v]. *)
Definition setitem (b : ndarray) (p : pos) (v : Z) : option ndarray :=
  i ← norm_index (shape0 b) p.1;
  r ← b !! i;
  j ← norm_index (Z.of_nat (length r)) p.2;
  Some (<[i := <[j := v]> r]> b).

(** [np.zeros((size, size))]. *)
Definition np_zeros (size : nat) : ndarray := replicate size (replicate size 0).

(** A position of the grid: both coordinates in [0, shape). *)
Definition in_bounds (b : ndarray) (p : pos) : Prop :=
  0 ≤ p.1 < shape0 b ∧ 0 ≤ p.2 < shape0 b.

#[global] Instance in_bounds_dec b p : Decision (in_bounds b p).
Proof. unfold in_bounds. apply _. Defined.

(** The cell at grid position [p] holds value [v]. *)
Definition holds (b : ndarray) (p : pos) (v : Z) : Prop :=
  in_bounds b p ∧ getitem b p = Some v.

(** The four lattice neighbours of a position, in the order in which
    [has_no_liberties] looks at them. *)
Definition lattice (p : pos) : list pos :=
  [(p.1 - 1, p.2); (p.1, p.2 - 1); (p.1 + 1, p.2); (p.1, p.2 + 1)].

(** ** Module-level functions *)

(** [is_valid_move(col, row, board)]. *)
Definition is_valid_move (col row : Z) (b : ndarray) : option bool :=
  if bool_decide (col < 0 ∨ col >= shape0 b) then Some false
  else if bool_decide (row < 0 ∨ row >= shape0 b) then Some false
  else v ← getitem b (col, row); Some (bool_decide (v = 0)).

(** One round of the loop body of [has_no_liberties]: [Some true] when one
    of the four guarded tests finds an empty cell (the function then returns
    [False]). *)
Definition probe (b : ndarray) (guard : bool) (p : pos) : option bool :=
  if guard then v ← getitem b p; Some (bool_decide (v = 0)) else Some false.

Definition has_liberty_at (b : ndarray) (p : pos) : option bool :=
  let x := p.1 in
  let y := p.2 in
  l ← probe b (bool_decide (x > 0)) (x - 1, y);
  if l : bool then Some true else
  u ← probe b (bool_decide (y > 0)) (x, y - 1);
  if u : bool then Some true else
  r ← probe b (bool_decide (x < shape0 b - 1)) (x + 1, y);
  if r : bool then Some true else
  probe b (bool_decide (y < shape0 b - 1)) (x, y + 1).

(** [has_no_liberties(board, group)], [group] being iterated as a list. *)
Fixpoint has_no_liberties (b : ndarray) (group : list pos) : option bool :=
  match group with
  | [] => Some true
  | p :: rest =>
      l ← has_liberty_at b p;
      if l : bool then Some false else has_no_liberties b rest
  end.

(** ** The stone graph

    [get_stone_groups] builds [nx.grid_graph(dim=[size, size])], removes
    every node that is not a stone of the colour, and asks networkx for the
    connected components.  networkx is a library the program imports, not
    part of the repository; its graph is modelled by the list of its nodes
    (in insertion order), two nodes being joined when they are lattice
    neighbours, which is what the grid graph and node removal leave, and
    [connected_components] by the breadth-first search the library runs
    from every node not reached before.  The order of the groups and of the
    stones inside a group is the model's; nothing below depends on it. *)

Abbreviation graph := (list pos).

(** [itertools.product(range(size), range(size))]. *)
Definition product_range (size : Z) : list pos :=
  x ← seqZ 0 size; y ← seqZ 0 size; [(x, y)].

(** [np.where(board == code)], zipped: the cells equal to [code], row-major
    (the array is square). *)
Definition np_where (b : ndarray) (code : Z) : list pos :=
  filter (λ p, getitem b p = Some code) (product_range (shape0 b)).

Definition grid_graph (size : Z) : graph := product_range size.

Definition remove_nodes_from (g : graph) (rm : gset pos) : graph :=
  filter (λ v, v ∉ rm) g.

(** [G.adj[v]]. *)
Definition adj (g : graph) (v : pos) : list pos :=
  filter (λ w, w ∈ g) (lattice v).

(** The nodes that one level of the breadth-first search discovers:
    neighbours of the current level not seen before, each once. *)
Definition next_level (g : graph) (seen : gset pos) (level : list pos) : list pos :=
  remove_dups (filter (λ w, w ∉ seen) (level ≫= adj g)).

(** networkx's [_plain_bfs], level by level; [fuel] bounds the number of
    levels (the node count is always enough, see [plain_bfs_closed]). *)
Fixpoint plain_bfs (fuel : nat) (g : graph) (seen : gset pos) (level : list pos)
  : gset pos :=
  match level with
  | [] => seen
  | _ :: _ =>
      match fuel with
      | O => seen
      | S fuel' =>
          let next := next_level g seen level in
          plain_bfs fuel' g (seen ∪ list_to_set next) next
      end
  end.

(** The loop of [nx.connected_components]: one search from every node not
    reached by an earlier one. *)
Fixpoint components_from (g : graph) (nodes : list pos) (seen : gset pos)
  : list (gset pos) :=
  match nodes with
  | [] => []
  | v :: rest =>
      if bool_decide (v ∈ seen) then components_from g rest seen
      else
        let c := plain_bfs (length g) g {[v]} [v] in
        c :: components_from g rest (seen ∪ c)
  end.

Definition connected_components (g : graph) : list (gset pos) :=
  components_from g g ∅.

(** [color_code = 1 if color == "black" else 2]. *)
Definition color_code (color : string) : Z :=
  if bool_decide (color = "black"%string) then 1 else 2.

(** [get_stone_groups(board, color)]; the caller turns the generator into a
    list at once. *)
Definition get_stone_groups (b : ndarray) (color : string) : list (gset pos) :=
  let size := shape0 b in
  let stones : gset pos := list_to_set (np_where b (color_code color)) in
  let all_spaces : gset pos := list_to_set (product_range size) in
  let stones_to_remove := all_spaces ∖ stones in
  connected_components (remove_nodes_from (grid_graph size) stones_to_remove).

(** ** [class Game] *)

Definition WINNING_SCORE : Z := 1.

(** What the player sees or hears. *)
Inductive effect : Type :=
  | PlaySound
  | ShowWinner (winner : string)
  | Draw (b : ndarray) (black_score white_score : Z)
  | Exit.

(** The events [update] reacts to; a click carries the intersection that
    [xy_to_colrow] computes from the mouse position. *)
Inductive event : Type :=
  | MOUSEBUTTONUP (col row : Z)
  | QUIT
  | KEYUP_p
  | OtherEvent.

(** Reading [d[k]] of a [defaultdict(int)]. *)
Definition dd_getitem (d : gmap string Z) (k : string) : Z * gmap string Z :=
  match d !! k with
  | Some v => (v, d)
  | None => (0, <[k := 0]> d)
  end.

(** [colrow_to_xy(col, row, size)] begins with the division
    [inc = (BOARD_WIDTH - 2 * BOARD_BORDER) / (size - 1)], which raises
    [ZeroDivisionError] when [size] is 1.  The pixel it then computes is a
    float and is not modelled; what is kept is whether the call returns. *)
Definition colrow_to_xy_returns (size : Z) : option unit :=
  if bool_decide (size - 1 = 0) then None else Some ().

Module Game.

Record t : Type := mk {
  board : ndarray;
  gsize : Z;
  black_turn : bool;
  prisoners : gmap string Z
}.

Definition with_board (g : t) (b : ndarray) : t :=
  mk b (gsize g) (black_turn g) (prisoners g).
Definition with_black_turn (g : t) (bt : bool) : t :=
  mk (board g) (gsize g) bt (prisoners g).
Definition with_prisoners (g : t) (d : gmap string Z) : t :=
  mk (board g) (gsize g) (black_turn g) d.

(** The count a read of [self.prisoners[color]] yields. *)
Definition prisoner_count (g : t) (color : string) : Z :=
  default 0 (prisoners g !! color).

(** [Game(size)]. *)
Definition init (size : nat) : t := mk (np_zeros size) (Z.of_nat size) true ∅.

(** [self.is_valid_move(col, row)]. *)
Definition is_valid_move (g : t) (col row : Z) : option bool :=
  let n := shape0 (board g) in
  if bool_decide (col < 0 ∨ col >= n ∨ row < 0 ∨ row >= n) then Some false
  else v ← getitem (board g) (col, row); Some (bool_decide (v = 0)).

(** The inner loop of [capture_stones]: empty every cell of the group,
    counting. *)
Fixpoint remove_loop (b : ndarray) (group : list pos) (count : Z)
  : option (ndarray * Z) :=
  match group with
  | [] => Some (b, count)
  | p :: rest => b' ← setitem b p 0; remove_loop b' rest (count + 1)
  end.

(** The outer loop of [capture_stones] over the list of groups computed
    beforehand; liberties are tested on the board as it is by then. *)
Fixpoint capture_loop (b : ndarray) (groups : list (gset pos)) (count : Z)
  : option (ndarray * Z) :=
  match groups with
  | [] => Some (b, count)
  | group :: rest =>
      dead ← has_no_liberties b (elements group);
      if dead : bool then
        r ← remove_loop b (elements group) count;
        capture_loop r.1 rest r.2
      else capture_loop b rest count
  end.

(** [self.capture_stones(color)]. *)
Definition capture_stones (g : t) (color : string) : option (t * Z) :=
  r ← capture_loop (board g) (get_stone_groups (board g) color) 0;
  Some (with_board g r.1, r.2).

(** The locals [self_color], [other_color] of [handle_captures] and
    [player] of [place_stone]. *)
Definition self_color (g : t) : string :=
  if black_turn g then "black"%string else "white"%string.
Definition other_color (g : t) : string :=
  if black_turn g then "white"%string else "black"%string.
Definition player (g : t) : Z := if black_turn g then 1 else 2.

(** [self.handle_captures()]. *)
Definition handle_captures (g : t) : option t :=
  r ← capture_stones g (other_color g);
  let rd := dd_getitem (prisoners r.1) (self_color g) in
  Some (with_prisoners r.1 (<[self_color g := rd.1 + r.2]> rd.2)).

(** [self.place_stone(col, row)]. *)
Definition place_stone (g : t) (col row : Z) : option t :=
  b ← setitem (board g) (col, row) (player g);
  handle_captures (with_board g b).

(** [self.check_winner()]. *)
Definition check_winner (g : t) : option string * t :=
  let rb := dd_getitem (prisoners g) "black" in
  if bool_decide (rb.1 >= WINNING_SCORE) then
    (Some "Black"%string, with_prisoners g rb.2)
  else
    let rw := dd_getitem rb.2 "white" in
    if bool_decide (rw.1 >= WINNING_SCORE) then
      (Some "White"%string, with_prisoners g rw.2)
    else (None, with_prisoners g rw.2).

(** [self.clear_screen()]: the guide dots are placed with [colrow_to_xy]
    for [self.size]. *)
Definition clear_screen (g : t) : option unit := colrow_to_xy_returns (gsize g).

(** [self.draw()]: clears the screen, then shows the stones (placed with
    [colrow_to_xy] as well) and both scores. *)
Definition draw (g : t) : option (t * list effect) :=
  _ ← clear_screen g;
  let rb := dd_getitem (prisoners g) "black" in
  let rw := dd_getitem rb.2 "white" in
  Some (with_prisoners g rw.2, [Draw (board g) rb.1 rw.1]).

(** [self.pass_move()]. *)
Definition pass_move (g : t) : option (t * list effect) :=
  draw (with_black_turn g (negb (black_turn g))).

(** [self.handle_click()], for the intersection [(col, row)] that
    [xy_to_colrow] has computed from the mouse position (when [self.size]
    is 1 that call raises and there is no intersection to handle).
    [show_winner_message] returns when Enter is pressed, and the method
    goes on. *)
Definition handle_click (g : t) (col row : Z) : option (t * list effect) :=
  valid ← is_valid_move g col row;
  if negb valid then Some (g, [])
  else
    g1 ← place_stone g col row;
    let cw := check_winner g1 in
    let shown := match cw.1 with Some w => [ShowWinner w] | None => [] end in
    let g2 := with_black_turn cw.2 (negb (black_turn cw.2)) in
    dr ← draw g2;
    Some (dr.1, PlaySound :: shown ++ dr.2).

(** [self.update()] over the events pygame delivers; [QUIT] leaves the
    program. *)
Fixpoint update (g : t) (events : list event) : option (t * list effect) :=
  match events with
  | [] => Some (g, [])
  | MOUSEBUTTONUP col row :: rest =>
      r ← handle_click g col row;
      r' ← update r.1 rest;
      Some (r'.1, r.2 ++ r'.2)
  | QUIT :: _ => Some (g, [Exit])
  | KEYUP_p :: rest =>
      r ← pass_move g;
      r' ← update r.1 rest;
      Some (r'.1, r.2 ++ r'.2)
  | OtherEvent :: rest => update g rest
  end.

End Game.

(** ** [registration]

    The form that asks for a nickname and a password.  pygame hands the
    events over in batches ([pygame.event.get()]), one batch for every turn
    of the [while running] loop; the function is run on the batches that
    arrive, and is still waiting when they are used up.  A Python [str] is a
    [string], one [ascii] standing for one character of it. *)

Module Registration.

(** [event.key], as far as the function tells keys apart. *)
Inductive key : Type := K_RETURN | K_BACKSPACE | K_other.

Inductive event : Type :=
  | QUIT
  | KEYDOWN (k : key) (unicode : string)
  | OtherEvent.

(** What is shown: the success screen, the form with the nickname and one
    star for every character of the password, and the closing of the
    window. *)
Inductive effect : Type :=
  | ShowSuccess
  | DrawForm (shown_username : string) (stars : nat)
  | DisplayQuit.

(** The locals [username], [password], [input_active] and [running]. *)
Record form : Type := mk {
  username : string;
  password : string;
  input_active : bool * bool;
  running : bool
}.

Definition init : form := mk "" "" (true, false) true.

(** [s[:-1]]. *)
Definition drop_last (s : string) : string :=
  String.substring 0 (String.length s - 1)%nat s.

(** The truth value of a [str]: it is not empty. *)
Definition truthy (s : string) : bool :=
  match s with EmptyString => false | String _ _ => true end.

(** The body of [if event.type == pygame.KEYDOWN]. *)
Definition keydown (f : form) (k : key) (unicode : string) : form * list effect :=
  if (input_active f).1 then
    match k with
    | K_RETURN => (mk (username f) (password f) (false, true) (running f), [])
    | K_BACKSPACE =>
        (mk (drop_last (username f)) (password f) (input_active f) (running f), [])
    | K_other =>
        (mk (String.append (username f) unicode) (password f) (input_active f)
            (running f), [])
    end
  else if (input_active f).2 then
    match k with
    | K_RETURN =>
        if truthy (username f) && truthy (password f) then
          (mk (username f) (password f) (input_active f) false, [ShowSuccess])
        else (f, [])
    | K_BACKSPACE =>
        (mk (username f) (drop_last (password f)) (input_active f) (running f), [])
    | K_other =>
        (mk (username f) (String.append (password f) unicode) (input_active f)
            (running f), [])
    end
  else (f, []).

(** The [for event in pygame.event.get()] loop; the boolean tells that a
    [QUIT] made the function return [False] on the spot. *)
Fixpoint for_events (f : form) (events : list event) : form * list effect * bool :=
  match events with
  | [] => (f, [], false)
  | QUIT :: _ => (f, [], true)
  | KEYDOWN k unicode :: rest =>
      let r := keydown f k unicode in
      let r' := for_events r.1 rest in
      (r'.1.1, r.2 ++ r'.1.2, r'.2)
  | OtherEvent :: rest => for_events f rest
  end.

(** The [while running] loop and what follows it: the value returned
    ([None] while the function waits for more events), the locals at that
    moment, and what was shown. *)
Fixpoint while_running (f : form) (batches : list (list event))
  : option bool * form * list effect :=
  if running f then
    match batches with
    | [] => (None, f, [])
    | events :: rest =>
        let r := for_events f events in
        if r.2 then (Some false, r.1.1, r.1.2)
        else
          let r' := while_running r.1.1 rest in
          (r'.1.1, r'.1.2,
           r.1.2 ++ DrawForm (username r.1.1) (String.length (password r.1.1)) :: r'.2)
    end
  else (Some true, f, [DisplayQuit]).

(** [registration(game)]. *)
Definition registration (batches : list (list event))
  : option bool * form * list effect :=
  while_running init batches.

End Registration.

(** ** Notions the properties are stated with *)

(** A position has a liberty when one of its lattice neighbours is an empty
    cell of the grid. *)
Definition liberty (b : ndarray) (p : pos) : Prop :=
  ∃ q, q ∈ lattice p ∧ holds b q 0.

(** Two positions of a set [S] are joined when they are lattice neighbours;
    [connected S] is the reflexive and transitive closure. *)

Definition edge (S : pos → Prop) (p q : pos) : Prop :=
  S p ∧ S q ∧ q ∈ lattice p.

Definition connected (S : pos → Prop) : relation pos := rtc (edge S).

(** What the search maintains: the current level has been seen, only
    nodes are seen, and the neighbours of every seen node outside the
    current level have been seen. *)
Definition bfs_inv (g : graph) (seen : gset pos) (level : list pos) : Prop :=
  (∀ p, p ∈ level → p ∈ seen) ∧
  (∀ p, p ∈ seen → p ∈ g) ∧
  (∀ p q, p ∈ seen → p ∉ level → q ∈ adj g p → q ∈ seen).

(** A stone of the colour: a cell of the grid that holds its code. *)
Definition stone (b : ndarray) (color : string) (p : pos) : Prop :=
  holds b p (color_code color).

(** The graph [get_stone_groups] hands to networkx has the stones of the
    colour as its nodes. *)
Definition stone_graph (b : ndarray) (color : string) : graph :=
  remove_nodes_from (grid_graph (shape0 b))
    (list_to_set (product_range (shape0 b)) ∖
     list_to_set (np_where b (color_code color))).

(** The sweep as the specification words it: every group is judged on the
    board as it is handed in, and the groups found without liberties are
    then removed together. *)
Fixpoint dead_groups (snapshot : ndarray) (groups : list (gset pos))
  : option (list (gset pos)) :=
  match groups with
  | [] => Some []
  | group :: rest =>
      dead ← has_no_liberties snapshot (elements group);
      ds ← dead_groups snapshot rest;
      Some (if dead : bool then group :: ds else ds)
  end.

Definition capture_simultaneous (b : ndarray) (color : string)
  : option (ndarray * Z) :=
  ds ← dead_groups b (get_stone_groups b color);
  Game.remove_loop b (ds ≫= elements) 0.

(** The form has stopped only after the nickname field was left with a
    nickname in it. *)
Definition form_ok (f : Registration.form) : Prop :=
  Registration.running f = false →
  (Registration.input_active f).1 = false ∧ Registration.username f ≠ EmptyString.

(** The nickname field was left empty and the form is still running. *)
Definition form_stuck (f : Registration.form) : Prop :=
  (Registration.input_active f).1 = false ∧
  Registration.username f = EmptyString ∧
  Registration.running f = true.

(** * Properties *)

(** ** Indexing the array *)

Lemma norm_index_nonneg n i :
  0 ≤ i < n → norm_index n i = Some (Z.to_nat i).
Proof. intros H. unfold norm_index. by rewrite bool_decide_eq_true_2. Qed.

Lemma square_row (b : ndarray) (i : nat) (r : list Z) :
  square b → b !! i = Some r → length r = length b.
Proof. intros Hsq Hr. eapply (proj1 (Forall_lookup _ _) Hsq); eauto. Qed.

Lemma in_bounds_row (b : ndarray) p :
  in_bounds b p → ∃ r, b !! Z.to_nat p.1 = Some r.
Proof.
  intros [[??] _]. apply lookup_lt_is_Some_2. unfold shape0 in *. lia.
Qed.

Lemma getitem_in_bounds (b : ndarray) p :
  square b → in_bounds b p →
  ∃ r, b !! Z.to_nat p.1 = Some r ∧ getitem b p = r !! Z.to_nat p.2 ∧
       is_Some (getitem b p).
Proof.
  intros Hsq Hin. destruct (in_bounds_row b p Hin) as [r Hr].
  pose proof (square_row b _ r Hsq Hr) as Hlen.
  destruct Hin as [Hx Hy]. exists r. split; [done|].
  assert (getitem b p = r !! Z.to_nat p.2) as ->.
  { unfold getitem. rewrite (norm_index_nonneg _ _ Hx). simpl. rewrite Hr. simpl.
    rewrite norm_index_nonneg; [done|]. unfold shape0 in Hy. lia. }
  split; [done|]. apply lookup_lt_is_Some_2. unfold shape0 in Hy. lia.
Qed.

Lemma getitem_is_Some (b : ndarray) p :
  square b → in_bounds b p → is_Some (getitem b p).
Proof. intros Hsq Hin. by destruct (getitem_in_bounds b p Hsq Hin) as (?&?&?&?). Qed.

(** Storing into a cell of the grid succeeds and changes that cell only. *)
Lemma setitem_spec (b : ndarray) p v :
  square b → in_bounds b p →
  ∃ b', setitem b p v = Some b' ∧ square b' ∧ length b' = length b ∧
        getitem b' p = Some v ∧
        ∀ q, in_bounds b q → q ≠ p → getitem b' q = getitem b q.
Proof.
  intros Hsq Hin. destruct (in_bounds_row b p Hin) as [r Hr].
  pose proof (square_row b _ r Hsq Hr) as Hlen.
  pose proof Hin as [Hx Hy]. unfold shape0 in Hx, Hy.
  set (i := Z.to_nat p.1). set (j := Z.to_nat p.2).
  exists (<[i := <[j := v]> r]> b).
  assert (setitem b p v = Some (<[i := <[j := v]> r]> b)) as Hset.
  { unfold setitem. rewrite norm_index_nonneg by done. simpl.
    rewrite Hr. simpl. rewrite norm_index_nonneg by lia. done. }
  assert (square (<[i := <[j := v]> r]> b)) as Hsq'.
  { unfold square. apply Forall_insert.
    - eapply Forall_impl; [exact Hsq|]. intros r0 Hr0. cbv beta in *.
      by rewrite length_insert.
    - by rewrite !length_insert. }
  assert (in_bounds (<[i := <[j := v]> r]> b) p) as Hin'.
  { unfold in_bounds, shape0. rewrite length_insert. done. }
  split; [done|]. split; [done|]. split; [by rewrite length_insert|]. split.
  - destruct (getitem_in_bounds _ p Hsq' Hin') as (r' & Hr' & -> & _).
    fold i in Hr'. rewrite list_lookup_insert_eq in Hr' by (subst i; lia).
    inversion Hr'; subst r'. fold j. apply list_lookup_insert_eq. subst j. lia.
  - intros q Hq Hne.
    assert (in_bounds (<[i := <[j := v]> r]> b) q) as Hq'.
    { unfold in_bounds, shape0. rewrite length_insert. done. }
    destruct (getitem_in_bounds _ q Hsq' Hq') as (r' & Hr' & -> & _).
    destruct (getitem_in_bounds _ q Hsq Hq) as (r0 & Hr0 & -> & _).
    destruct Hq as [Hqx Hqy]. unfold shape0 in Hqx, Hqy.
    destruct (decide (Z.to_nat q.1 = i)) as [Heq|Hneq].
    + rewrite Heq in Hr', Hr0. rewrite list_lookup_insert_eq in Hr' by (subst i; lia).
      inversion Hr'; subst r'. assert (r0 = r) as -> by (subst i; congruence).
      apply list_lookup_insert_ne. intros Hj. apply Hne.
      destruct p, q; simpl in *. f_equal; subst i j; lia.
    + rewrite list_lookup_insert_ne in Hr' by done. congruence.
Qed.

Lemma in_bounds_shape (b b' : ndarray) p :
  length b' = length b → in_bounds b p ↔ in_bounds b' p.
Proof. intros H. unfold in_bounds, shape0. by rewrite H. Qed.

Lemma np_zeros_square n : square (np_zeros n).
Proof.
  unfold square, np_zeros. rewrite length_replicate.
  apply Forall_replicate. by rewrite length_replicate.
Qed.

(** ** Liberties *)

Lemma probe_spec (b : ndarray) (P : Prop) `{!Decision P} q :
  square b → (P ↔ in_bounds b q) →
  ∃ r, probe b (bool_decide P) q = Some r ∧ (r = true ↔ holds b q 0).
Proof.
  intros Hsq HP. unfold probe, holds. case_bool_decide as HPd.
  - destruct (getitem_is_Some b q Hsq) as [v Hv]; [tauto|]. rewrite Hv. simpl.
    eexists; split; [done|]. rewrite bool_decide_eq_true. naive_solver.
  - exists false. naive_solver.
Qed.

Lemma has_liberty_at_spec (b : ndarray) p :
  square b → in_bounds b p →
  ∃ r, has_liberty_at b p = Some r ∧ (r = true ↔ liberty b p).
Proof.
  intros Hsq [Hx Hy]. unfold has_liberty_at, liberty, lattice.
  destruct (probe_spec b (p.1 > 0) (p.1 - 1, p.2) Hsq) as (r1 & -> & H1).
  { unfold in_bounds; simpl; lia. }
  destruct (probe_spec b (p.2 > 0) (p.1, p.2 - 1) Hsq) as (r2 & E2 & H2).
  { unfold in_bounds; simpl; lia. }
  destruct (probe_spec b (p.1 < shape0 b - 1) (p.1 + 1, p.2) Hsq) as (r3 & E3 & H3).
  { unfold in_bounds; simpl; lia. }
  destruct (probe_spec b (p.2 < shape0 b - 1) (p.1, p.2 + 1) Hsq) as (r4 & E4 & H4).
  { unfold in_bounds; simpl; lia. }
  simpl. destruct r1.
  { exists true. split; [done|]. split; [|done]. intros _. eexists. split; [|by apply H1].
    set_solver. }
  rewrite E2. simpl. destruct r2.
  { exists true. split; [done|]. split; [|done]. intros _. eexists. split; [|by apply H2].
    set_solver. }
  rewrite E3. simpl. destruct r3.
  { exists true. split; [done|]. split; [|done]. intros _. eexists. split; [|by apply H3].
    set_solver. }
  rewrite E4. exists r4. split; [done|]. rewrite H4. split.
  - intros H. eexists. split; [|exact H]. set_solver.
  - intros (q & Hq & Hh).
    rewrite !elem_of_cons, elem_of_nil in Hq.
    destruct Hq as [->|[->|[->|[->|[]]]]]; [apply H1 in Hh|apply H2 in Hh|apply H3 in Hh|];
      done.
Qed.

Lemma has_no_liberties_spec (b : ndarray) (group : list pos) :
  square b → Forall (in_bounds b) group →
  ∃ r, has_no_liberties b group = Some r ∧
       (r = true ↔ ∀ p, p ∈ group → ¬ liberty b p).
Proof.
  intros Hsq. induction 1 as [|p group Hp Hgroup IH]; simpl.
  - exists true. split; [done|]. split; [|done]. intros _ p Hp. by apply elem_of_nil in Hp.
  - destruct (has_liberty_at_spec b p Hsq Hp) as (l & -> & Hl). simpl.
    destruct IH as (r & Hr & Hiff). destruct l.
    + exists false. split; [done|]. split; [done|]. intros H.
      exfalso. apply (H p); [left|by apply Hl].
    + exists r. split; [done|]. rewrite Hiff. split.
      * intros H q Hq. apply elem_of_cons in Hq as [->|Hq]; [|by apply H].
        intros Hlib. apply Hl in Hlib. done.
      * intros H q Hq. apply H. by right.
Qed.

Lemma lattice_sym p q : q ∈ lattice p → p ∈ lattice q.
Proof.
  unfold lattice. rewrite !elem_of_cons, !elem_of_nil.
  destruct p as [x y], q as [x' y']; simpl.
  intros [?|[?|[?|[?|[]]]]]; simplify_eq.
  - right; right; left. f_equal; lia.
  - right; right; right; left. f_equal; lia.
  - left. f_equal; lia.
  - right; left. f_equal; lia.
Qed.

Lemma edge_sym S p q : edge S p q → edge S q p.
Proof. intros (?&?&?). repeat split; auto using lattice_sym. Qed.

Lemma connected_sym S p q : connected S p q → connected S q p.
Proof.
  induction 1 as [|p q r Hpq _ IH]; [apply rtc_refl|].
  eapply rtc_r; [exact IH|]. by apply edge_sym.
Qed.

Lemma connected_in S p q : connected S p q → S p → S q.
Proof. induction 1 as [|p q r (?&?&?) _ IH]; auto. Qed.

Lemma connected_ext (S S' : pos → Prop) p q :
  (∀ w, S w ↔ S' w) → connected S p q → connected S' p q.
Proof.
  intros HS. apply rtc_subrel. intros x y (?&?&?). repeat split; try done; by apply HS.
Qed.

Lemma size_list_to_set_le (l : list pos) :
  (size (list_to_set l : gset pos) ≤ length l)%nat.
Proof.
  induction l as [|x l IH].
  - by rewrite list_to_set_nil, size_empty.
  - rewrite list_to_set_cons, size_union_alt, size_singleton. simpl.
    assert (list_to_set l ∖ {[x]} ⊆ (list_to_set l : gset pos)) as Hsub by set_solver.
    apply subseteq_size in Hsub. lia.
Qed.

(** ** Connectivity and the search *)

Section search.
Variable g : graph.

Lemma elem_of_adj v w : w ∈ adj g v ↔ (w ∈ g ∧ w ∈ lattice v).
Proof. unfold adj. by rewrite list_elem_of_filter. Qed.

Lemma elem_of_next_level seen level w :
  w ∈ next_level g seen level ↔ (w ∉ seen) ∧ ∃ v, v ∈ level ∧ w ∈ adj g v.
Proof.
  unfold next_level. rewrite elem_of_remove_dups, list_elem_of_filter, list_elem_of_bind.
  naive_solver.
Qed.

Lemma bfs_inv_next seen level :
  bfs_inv g seen level →
  let next := next_level g seen level in
  bfs_inv g (seen ∪ list_to_set next) next.
Proof.
  intros (Hl & Hg & Hc) next. repeat split.
  - intros p Hp. apply elem_of_union. right. by apply elem_of_list_to_set.
  - intros p [Hp|Hp]%elem_of_union; [by apply Hg|].
    apply elem_of_list_to_set, elem_of_next_level in Hp as (_ & v & _ & Hv).
    by apply elem_of_adj in Hv as [??].
  - intros p q [Hp|Hp]%elem_of_union Hnot Hq; [|by apply elem_of_list_to_set in Hp].
    destruct (decide (q ∈ seen)) as [|Hqs]; [set_solver|].
    apply elem_of_union. right. apply elem_of_list_to_set, elem_of_next_level.
    split; [done|]. destruct (decide (p ∈ level)) as [|Hpl]; [eauto|].
    destruct Hqs. by eapply Hc.
Qed.

Lemma size_next seen level :
  let next := next_level g seen level in
  next ≠ [] →
  (size seen < size (seen ∪ list_to_set next))%nat.
Proof.
  intros next Hne. rewrite size_union.
  - rewrite size_list_to_set by apply NoDup_remove_dups.
    destruct next; [done|]. simpl. lia.
  - intros w Hw Hw'. apply elem_of_list_to_set, elem_of_next_level in Hw'. tauto.
Qed.

(** The search returns a set of nodes that contains what was seen, is
    closed under adjacency, and holds only nodes connected to [s] when
    that was so of the nodes seen at the start. *)
Lemma plain_bfs_spec (s : pos) fuel : ∀ seen level,
  bfs_inv g seen level →
  (∀ w, w ∈ seen → connected (.∈ g) s w) →
  (level ≠ [] → size (list_to_set g : gset pos) < fuel + size seen)%nat →
  let r := plain_bfs fuel g seen level in
  seen ⊆ r ∧ (∀ w, w ∈ r → connected (.∈ g) s w) ∧
  (∀ p q, p ∈ r → q ∈ adj g p → q ∈ r).
Proof.
  induction fuel as [|fuel IH]; intros seen level Hinv Hconn Hfuel.
  - destruct level as [|v level]; simpl.
    + destruct Hinv as (_ & _ & Hc). repeat split; [done..|].
      intros p q Hp. apply Hc; [done|]. apply not_elem_of_nil.
    + exfalso. destruct Hinv as (_ & Hg & _).
      assert (seen ⊆ list_to_set g) as Hsub.
      { intros w Hw. apply elem_of_list_to_set. by apply Hg. }
      apply subseteq_size in Hsub. specialize (Hfuel ltac:(done)). lia.
  - destruct level as [|v level]; simpl.
    + destruct Hinv as (_ & _ & Hc). repeat split; [done..|].
      intros p q Hp. apply Hc; [done|]. apply not_elem_of_nil.
    + set (next := next_level g seen (v :: level)).
      destruct (IH (seen ∪ list_to_set next) next) as (Hsub & Hs & Hc).
      * by apply bfs_inv_next.
      * intros w [Hw|Hw]%elem_of_union; [by apply Hconn|].
        apply elem_of_list_to_set, elem_of_next_level in Hw as (_ & u & Hu & Hw).
        apply elem_of_adj in Hw as [Hwg Hwl].
        destruct Hinv as (Hl & Hg & _).
        eapply rtc_r; [apply Hconn, Hl, Hu|]. repeat split; auto.
      * intros Hne. pose proof (size_next seen (v :: level) Hne) as Hlt.
        fold next in Hlt. specialize (Hfuel ltac:(done)). lia.
      * repeat split; [set_solver|done..].
Qed.

(** The component found from a node [v] is the set of nodes connected to
    it. *)
Lemma plain_bfs_component v w :
  v ∈ g →
  w ∈ plain_bfs (length g) g {[v]} [v] ↔ connected (.∈ g) v w.
Proof.
  intros Hv.
  destruct (plain_bfs_spec v (length g) {[v]} [v]) as (Hsub & Hs & Hc).
  - repeat split.
    + intros p ->%list_elem_of_singleton. set_solver.
    + intros p ->%elem_of_singleton. done.
    + intros p q ->%elem_of_singleton Hn. destruct Hn. left.
  - intros w' ->%elem_of_singleton. apply rtc_refl.
  - intros _. rewrite size_singleton. pose proof (size_list_to_set_le g). lia.
  - split; [apply Hs|].
    revert w. apply rtc_ind_r.
    + set_solver.
    + intros p w _ (_ & Hw & Hl) IH. eapply Hc; [apply IH|]. by apply elem_of_adj.
Qed.
End search.

(** The components listed from [nodes] on, [seen] being the union of the
    components listed before: each is the class of a node, none meets
    [seen] or another one, and every node is covered. *)
Lemma components_from_spec (g : graph) : ∀ nodes seen,
  (∀ v, v ∈ nodes → v ∈ g) →
  (∀ v w, v ∈ seen → connected (.∈ g) v w → w ∈ seen) →
  let cs := components_from g nodes seen in
  (∀ c, c ∈ cs →
     c ## seen ∧ ∃ v, v ∈ nodes ∧ ∀ w, w ∈ c ↔ connected (.∈ g) v w) ∧
  (∀ v, v ∈ nodes → v ∈ seen ∨ ∃ c, c ∈ cs ∧ v ∈ c) ∧
  (∀ i j c1 c2, cs !! i = Some c1 → cs !! j = Some c2 → i ≠ j → c1 ## c2).
Proof.
  induction nodes as [|v rest IH]; intros seen Hnodes Hseen; simpl.
  { split; [|split].
    - by intros c ?%elem_of_nil.
    - by intros c ?%elem_of_nil.
    - intros i j c1 c2 Hi. by rewrite lookup_nil in Hi. }
  assert (∀ u, u ∈ rest → u ∈ g) as Hrest by (intros u Hu; apply Hnodes; by right).
  case_bool_decide as Hv.
  - destruct (IH seen Hrest Hseen) as (Ha & Hb & Hc). split; [|split].
    + intros c Hin. destruct (Ha c Hin) as (Hd & u & Hu & Hcl).
      split; [done|]. exists u. split; [by right|done].
    + intros u [->|Hu]%elem_of_cons; [by left|by apply Hb].
    + done.
  - set (c := plain_bfs (length g) g {[v]} [v]).
    assert (v ∈ g) as Hvg by (apply Hnodes; left).
    assert (∀ w, w ∈ c ↔ connected (.∈ g) v w) as Hcl
      by (intros w; by apply plain_bfs_component).
    assert (c ## seen) as Hdisj.
    { intros w Hw Hws. apply Hv. apply (Hseen w v Hws).
      apply connected_sym. by apply Hcl. }
    destruct (IH (seen ∪ c) Hrest) as (Ha & Hb & Hc).
    { intros u w [Hu|Hu]%elem_of_union Hconn.
      - apply elem_of_union. left. by eapply Hseen.
      - apply elem_of_union. right. apply Hcl. eapply rtc_trans; [by apply Hcl|done]. }
    split; [|split].
    + intros c' [->|Hc']%elem_of_cons.
      * split; [done|]. exists v. split; [left|done].
      * destruct (Ha c' Hc') as (Hd & u & Hu & Hu'). split; [set_solver|].
        exists u. split; [by right|done].
    + intros u [->|Hu]%elem_of_cons.
      * right. exists c. split; [left|]. apply Hcl, rtc_refl.
      * destruct (Hb u Hu) as [[?|?]%elem_of_union|(c' & Hc' & Hu')].
        -- by left.
        -- right. exists c. split; [left|done].
        -- right. exists c'. split; [by right|done].
    + intros [|i] [|j] c1 c2 H1 H2 Hne; simpl in *; simplify_eq.
      * apply list_elem_of_lookup_2 in H2. destruct (Ha c2 H2) as (Hd & _). set_solver.
      * apply list_elem_of_lookup_2 in H1. destruct (Ha c1 H1) as (Hd & _). set_solver.
      * eapply Hc; eauto.
Qed.

(** ** Stone groups *)

Lemma elem_of_product_range n p :
  p ∈ product_range n ↔ 0 ≤ p.1 < n ∧ 0 ≤ p.2 < n.
Proof.
  unfold product_range. rewrite list_elem_of_bind. split.
  - intros (x & Hp & Hx). apply list_elem_of_bind in Hp as (y & Hp & Hy).
    apply list_elem_of_singleton in Hp as ->. simpl.
    apply elem_of_seqZ in Hx, Hy. lia.
  - intros [Hx Hy]. exists p.1. split; [|apply elem_of_seqZ; lia].
    apply list_elem_of_bind. exists p.2. split; [|apply elem_of_seqZ; lia].
    destruct p. simpl. left.
Qed.

Lemma elem_of_stone_graph b color p :
  p ∈ stone_graph b color ↔ stone b color p.
Proof.
  unfold stone_graph, remove_nodes_from, grid_graph, np_where, stone, holds, in_bounds.
  rewrite list_elem_of_filter, not_elem_of_difference, !elem_of_list_to_set,
    list_elem_of_filter, elem_of_product_range.
  tauto.
Qed.

Lemma get_stone_groups_spec (b : ndarray) (color : string) :
  let gs := get_stone_groups b color in
  (∀ c, c ∈ gs →
     ∃ v, stone b color v ∧ ∀ w, w ∈ c ↔ connected (stone b color) v w) ∧
  (∀ v, stone b color v → ∃ c, c ∈ gs ∧ v ∈ c) ∧
  (∀ i j c1 c2, gs !! i = Some c1 → gs !! j = Some c2 → i ≠ j → c1 ## c2).
Proof.
  change (get_stone_groups b color) with (connected_components (stone_graph b color)).
  unfold connected_components.
  destruct (components_from_spec (stone_graph b color) (stone_graph b color) ∅)
    as (Ha & Hb & Hc); [done|set_solver|].
  simpl. split; [|split].
  - intros c Hin. destruct (Ha c Hin) as (_ & v & Hv & Hcl). exists v.
    split; [by apply elem_of_stone_graph|]. intros w. rewrite Hcl.
    split; apply connected_ext; intros u; by rewrite elem_of_stone_graph.
  - intros v Hv. apply elem_of_stone_graph in Hv.
    destruct (Hb v Hv) as [?|?]; [set_solver|done].
  - done.
Qed.

(** ** The capture sweep *)

Lemma remove_loop_app (l1 l2 : list pos) : ∀ (b : ndarray) count,
  Game.remove_loop b (l1 ++ l2) count =
  r ← Game.remove_loop b l1 count; Game.remove_loop r.1 l2 r.2.
Proof.
  induction l1 as [|p l1 IH]; intros b count; simpl; [done|].
  destruct (setitem b p 0) as [b'|]; simpl; [apply IH|done].
Qed.

Lemma remove_loop_spec (group : list pos) : ∀ (b : ndarray) count,
  square b → Forall (in_bounds b) group →
  ∃ b', Game.remove_loop b group count = Some (b', count + Z.of_nat (length group)) ∧
        square b' ∧ length b' = length b ∧
        ∀ q, in_bounds b q →
             getitem b' q = if decide (q ∈ group) then Some 0 else getitem b q.
Proof.
  induction group as [|p group IH]; intros b count Hsq Hall;
    cbn [Game.remove_loop length].
  - exists b. rewrite Z.add_0_r. split; [done|]. split; [done|]. split; [done|].
    intros q _. by rewrite decide_False by apply not_elem_of_nil.
  - apply Forall_cons in Hall as [Hp Hall].
    destruct (setitem_spec b p 0 Hsq Hp) as (b1 & -> & Hsq1 & Hlen1 & Hget & Hother).
    cbn [mbind option_bind]. destruct (IH b1 (count + 1) Hsq1) as (b' & -> & Hsq' & Hlen' & Hcells).
    { eapply Forall_impl; [exact Hall|]. intros q. by apply in_bounds_shape. }
    exists b'. split; [f_equal; f_equal; lia|]. split; [done|]. split; [congruence|].
    intros q Hq. rewrite Hcells by (by apply (in_bounds_shape b b1)).
    destruct (decide (q ∈ group)) as [Hin|Hnin].
    + rewrite decide_True by (by right). done.
    + destruct (decide (q = p)) as [->|Hne].
      * rewrite decide_True by left. done.
      * rewrite decide_False by (rewrite elem_of_cons; tauto). by apply Hother.
Qed.

Lemma dead_groups_spec (b : ndarray) (groups : list (gset pos)) :
  square b → (∀ group p, group ∈ groups → p ∈ group → in_bounds b p) →
  ∃ ds, dead_groups b groups = Some ds ∧
        ∀ group, group ∈ ds ↔ group ∈ groups ∧ ∀ p, p ∈ group → ¬ liberty b p.
Proof.
  intros Hsq. induction groups as [|group groups IH]; intros Hin; simpl.
  - exists []. split; [done|]. intros group. rewrite !elem_of_nil. tauto.
  - destruct (has_no_liberties_spec b (elements group) Hsq) as (r & -> & Hr).
    { apply Forall_forall. intros p Hp%elem_of_elements. eapply Hin; [left|done]. }
    destruct IH as (ds & -> & Hds).
    { intros g' p Hg'. apply Hin. by right. }
    simpl. eexists. split; [done|]. intros g'.
    assert (r = true ↔ ∀ p, p ∈ group → ¬ liberty b p) as Hr'.
    { rewrite Hr. split; intros H p Hp; apply H; by apply elem_of_elements. }
    destruct r.
    + rewrite !elem_of_cons, Hds. split; [|tauto].
      intros [->|?]; [|tauto]. split; [by left|by apply Hr'].
    + rewrite elem_of_cons, Hds. split; [tauto|].
      intros [[->|?] Hno]; [|tauto]. by apply Hr' in Hno.
Qed.

Lemma bool_iff_eq (r r' : bool) (P P' : Prop) :
  (r = true ↔ P) → (r' = true ↔ P') → (P ↔ P') → r = r'.
Proof. destruct r, r'; intuition congruence. Qed.

(** The heart of the equivalence: while the groups still to be judged are
    closed under adjacency among the stones of the snapshot and disjoint, and
    the board differs from the snapshot only at stones outside them, judging
    on the current board is judging on the snapshot. *)
Lemma capture_loop_snapshot (b0 : ndarray) (color : string) :
  square b0 →
  ∀ (groups : list (gset pos)) (b : ndarray) count,
  (∀ group p, group ∈ groups → p ∈ group → stone b0 color p) →
  (∀ group p q, group ∈ groups → p ∈ group → q ∈ lattice p →
                stone b0 color q → q ∈ group) →
  (∀ i j c1 c2, groups !! i = Some c1 → groups !! j = Some c2 → i ≠ j → c1 ## c2) →
  square b → length b = length b0 →
  (∀ q, in_bounds b0 q → getitem b q ≠ getitem b0 q →
        stone b0 color q ∧ ∀ group, group ∈ groups → q ∉ group) →
  Game.capture_loop b groups count =
  ds ← dead_groups b0 groups; Game.remove_loop b (ds ≫= elements) count.
Proof.
  intros Hsq0. induction groups as [|group groups IH];
    intros b count Hstone Hclosed Hdisj Hsq Hlen Hdiff; simpl; [done|].
  assert (Forall (in_bounds b0) (elements group)) as Hin0.
  { apply Forall_forall. intros p Hp%elem_of_elements.
    by destruct (Hstone group p ltac:(left) Hp). }
  assert (Forall (in_bounds b) (elements group)) as Hin.
  { eapply Forall_impl; [exact Hin0|]. intros p. by apply in_bounds_shape. }
  destruct (has_no_liberties_spec b (elements group) Hsq Hin) as (r & -> & Hr).
  destruct (has_no_liberties_spec b0 (elements group) Hsq0 Hin0) as (r0 & -> & Hr0).
  assert (r = r0) as ->.
  { eapply bool_iff_eq; [exact Hr|exact Hr0|].
    assert (∀ p, p ∈ elements group → (liberty b p ↔ liberty b0 p)) as Hlib.
    { intros p Hp%elem_of_elements. unfold liberty, holds.
      assert (∀ q, q ∈ lattice p → in_bounds b0 q → getitem b q = getitem b0 q) as Hsame.
      { intros q Hq Hqin. destruct (decide (getitem b q = getitem b0 q)) as [|Hne]; [done|].
        destruct (Hdiff q Hqin Hne) as [Hqs Hqn]. destruct (Hqn group ltac:(left)).
        by eapply Hclosed; [left|..]. }
      split; intros (q & Hq & Hqin & Hget); exists q; (split; [done|]).
      - apply (in_bounds_shape b0 b) in Hqin; [|done]. split; [done|].
        by rewrite <- Hsame.
      - split; [by apply (in_bounds_shape b0 b)|]. by rewrite Hsame. }
    split; intros H p Hp Hl; apply (H p Hp); by apply Hlib. }
  assert (∀ g' p, g' ∈ groups → p ∈ g' → stone b0 color p) as Hstone'
    by (intros g' p Hg'; apply Hstone; by right).
  assert (∀ g' p q, g' ∈ groups → p ∈ g' → q ∈ lattice p →
                    stone b0 color q → q ∈ g') as Hclosed'
    by (intros g' p q Hg'; apply Hclosed; by right).
  assert (∀ i j c1 c2, groups !! i = Some c1 → groups !! j = Some c2 →
                       i ≠ j → c1 ## c2) as Hdisj'.
  { intros i j c1 c2 H1 H2 Hne. apply (Hdisj (S i) (S j)); simpl; auto. }
  simpl. destruct r0.
  - destruct (remove_loop_spec (elements group) b count Hsq Hin)
      as (b1 & Hrm & Hsq1 & Hlen1 & Hcells).
    rewrite Hrm. simpl. rewrite (IH b1); try done; [|congruence|].
    + destruct (dead_groups b0 groups) as [ds|]; simpl; [|done].
      by rewrite remove_loop_app, Hrm.
    + intros q Hq Hne. rewrite Hcells in Hne by (by apply (in_bounds_shape b0 b)).
      destruct (decide (q ∈ elements group)) as [Hqg%elem_of_elements|Hqg].
      * split; [by eapply Hstone; [left|]|]. intros g' Hg' Hqg'.
        apply list_elem_of_lookup_1 in Hg' as [j Hj].
        apply (Hdisj 0%nat (S j) group g' eq_refl Hj ltac:(done) q Hqg Hqg').
      * destruct (Hdiff q Hq Hne) as [? Hnone]. split; [done|].
        intros g' Hg'. apply Hnone. by right.
  - rewrite (IH b); try done.
    + by destruct (dead_groups b0 groups).
    + intros q Hq Hne. destruct (Hdiff q Hq Hne) as [? Hnone]. split; [done|].
      intros g' Hg'. apply Hnone. by right.
Qed.

Lemma color_code_nonzero color : color_code color ≠ 0.
Proof. unfold color_code. by case_bool_decide. Qed.

Section groups.
Variables (b : ndarray) (color : string).

Lemma group_stone group p :
  group ∈ get_stone_groups b color → p ∈ group → stone b color p.
Proof.
  intros Hg Hp. destruct (get_stone_groups_spec b color) as (Ha & _ & _).
  destruct (Ha group Hg) as (v & Hv & Hcl). apply Hcl in Hp.
  by eapply connected_in.
Qed.

Lemma group_connected group p q :
  group ∈ get_stone_groups b color → p ∈ group → q ∈ group →
  connected (stone b color) p q.
Proof.
  intros Hg Hp Hq. destruct (get_stone_groups_spec b color) as (Ha & _ & _).
  destruct (Ha group Hg) as (v & Hv & Hcl). apply Hcl in Hp, Hq.
  eapply rtc_trans; [apply connected_sym, Hp|exact Hq].
Qed.

Lemma group_maximal group p q :
  group ∈ get_stone_groups b color → p ∈ group → connected (stone b color) p q →
  q ∈ group.
Proof.
  intros Hg Hp Hq. destruct (get_stone_groups_spec b color) as (Ha & _ & _).
  destruct (Ha group Hg) as (v & Hv & Hcl). apply Hcl. apply Hcl in Hp.
  by eapply rtc_trans.
Qed.

Lemma group_closed group p q :
  group ∈ get_stone_groups b color → p ∈ group → q ∈ lattice p →
  stone b color q → q ∈ group.
Proof.
  intros Hg Hp Hq Hs. apply (group_maximal group p q Hg Hp).
  apply rtc_once. split; [by eapply group_stone|done].
Qed.

Lemma group_of_stone p :
  stone b color p → ∃ group, group ∈ get_stone_groups b color ∧ p ∈ group.
Proof. intros Hp. destruct (get_stone_groups_spec b color) as (_ & Hb & _). auto. Qed.

Lemma groups_disjoint i j c1 c2 :
  get_stone_groups b color !! i = Some c1 →
  get_stone_groups b color !! j = Some c2 → i ≠ j → c1 ## c2.
Proof. destruct (get_stone_groups_spec b color) as (_ & _ & Hc). apply Hc. Qed.

Lemma groups_equal_or_disjoint c1 c2 p :
  c1 ∈ get_stone_groups b color → c2 ∈ get_stone_groups b color →
  p ∈ c1 → p ∈ c2 → c1 = c2.
Proof.
  intros [i Hi]%list_elem_of_lookup_1 [j Hj]%list_elem_of_lookup_1 H1 H2.
  destruct (decide (i = j)) as [->|Hne]; [congruence|].
  destruct (groups_disjoint i j c1 c2 Hi Hj Hne p H1 H2).
Qed.

(** The sweep of the program is the simultaneous sweep. *)
Lemma capture_loop_simultaneous :
  square b →
  Game.capture_loop b (get_stone_groups b color) 0 = capture_simultaneous b color.
Proof.
  intros Hsq. unfold capture_simultaneous.
  apply (capture_loop_snapshot b color Hsq); try done.
  - apply group_stone.
  - apply group_closed.
  - apply groups_disjoint.
Qed.

(** What the sweep returns: the board with exactly the stones of the
    groups without liberties emptied, and their number. *)
Lemma capture_loop_spec :
  square b →
  ∃ ds b',
    dead_groups b (get_stone_groups b color) = Some ds ∧
    Game.capture_loop b (get_stone_groups b color) 0
      = Some (b', Z.of_nat (length (ds ≫= elements))) ∧
    square b' ∧ length b' = length b ∧
    (∀ group, group ∈ ds ↔
       group ∈ get_stone_groups b color ∧ ∀ p, p ∈ group → ¬ liberty b p) ∧
    ∀ q, in_bounds b q →
         getitem b' q = if decide (q ∈ ds ≫= elements) then Some 0 else getitem b q.
Proof.
  intros Hsq. rewrite capture_loop_simultaneous by done. unfold capture_simultaneous.
  destruct (dead_groups_spec b (get_stone_groups b color) Hsq) as (ds & Hds & Hiff).
  { intros group p Hg Hp. by destruct (group_stone group p Hg Hp). }
  rewrite Hds. cbn [mbind option_bind].
  destruct (remove_loop_spec (ds ≫= elements) b 0 Hsq) as (b' & Hrm & Hsq' & Hlen & Hc).
  { apply Forall_forall. intros p (group & Hp & Hg)%list_elem_of_bind.
    apply elem_of_elements in Hp. apply Hiff in Hg as [Hg _].
    by destruct (group_stone group p Hg Hp). }
  exists ds, b'. rewrite Z.add_0_l in Hrm. done.
Qed.
End groups.

Lemma has_no_liberties_false (b : ndarray) (group : list pos) :
  square b → Forall (in_bounds b) group →
  has_no_liberties b group = Some false → ∃ p, p ∈ group ∧ liberty b p.
Proof.
  intros Hsq. induction 1 as [|p group Hp Hgroup IH]; simpl; [done|].
  destruct (has_liberty_at_spec b p Hsq Hp) as (l & -> & Hl). simpl. destruct l.
  - intros _. exists p. split; [left|by apply Hl].
  - intros (q & Hq & Hlib)%IH. exists q. split; [by right|done].
Qed.

(** After the sweep of a colour no group of that colour is without
    liberties: a surviving stone belongs to a group that had a liberty, the
    whole of that group survives, and the liberty is still empty. *)
Lemma sweep_leaves_liberties (b b' : ndarray) (color : string) n :
  square b →
  Game.capture_loop b (get_stone_groups b color) 0 = Some (b', n) →
  ∀ group, group ∈ get_stone_groups b' color →
           has_no_liberties b' (elements group) = Some false.
Proof.
  intros Hsq Hcap group' Hg'.
  destruct (capture_loop_spec b color Hsq) as (ds & b1 & Hds & Hcap1 & Hsq' & Hlen & Hiff & Hc).
  rewrite Hcap in Hcap1. injection Hcap1 as <- _.
  assert (∀ p, in_bounds b p ↔ in_bounds b' p) as Hib
    by (intros p; by apply in_bounds_shape).
  (* a stone of the new board is a stone of the old one, outside the dead groups *)
  assert (∀ p, stone b' color p → stone b color p ∧ p ∉ ds ≫= elements) as Hold.
  { intros p [Hin Hget]. apply Hib in Hin. rewrite Hc in Hget by done.
    destruct (decide (p ∈ ds ≫= elements)); [|done].
    injection Hget as Hz. symmetry in Hz. by apply color_code_nonzero in Hz. }
  (* the stones of a group that was not removed are still there *)
  assert (∀ g p, g ∈ get_stone_groups b color → g ∉ ds → p ∈ g → stone b' color p)
    as Hkeep.
  { intros g p Hg Hgd Hp. destruct (group_stone b color g p Hg Hp) as [Hin Hget].
    split; [by apply Hib|]. rewrite Hc by done.
    destruct (decide (p ∈ ds ≫= elements)) as [Hdead|]; [|done].
    apply list_elem_of_bind in Hdead as (d & Hpd%elem_of_elements & Hd).
    destruct Hgd. pose proof (proj1 (Hiff d) Hd) as [Hdg _].
    by rewrite (groups_equal_or_disjoint b color g d p Hg Hdg Hp Hpd). }
  assert (Forall (in_bounds b') (elements group')) as Hin'.
  { apply Forall_forall. intros p Hp%elem_of_elements.
    by destruct (group_stone b' color group' p Hg' Hp). }
  destruct (has_no_liberties_spec b' (elements group') Hsq' Hin') as (r & Hr & Hriff).
  rewrite Hr. destruct r; [|done]. exfalso.
  destruct (get_stone_groups_spec b' color) as (Ha & _ & _).
  destruct (Ha group' Hg') as (v & Hv & Hcl).
  destruct (Hold v Hv) as [Hvs Hvd].
  destruct (group_of_stone b color v Hvs) as (g & Hg & Hvg).
  assert (g ∉ ds) as Hgd.
  { intros Hgd. apply Hvd. apply list_elem_of_bind. exists g.
    split; [by apply elem_of_elements|done]. }
  assert (Forall (in_bounds b) (elements g)) as Hing.
  { apply Forall_forall. intros p Hp%elem_of_elements.
    by destruct (group_stone b color g p Hg Hp). }
  destruct (has_no_liberties_spec b (elements g) Hsq Hing) as (r & Hrg & Hrgiff).
  destruct r.
  { apply Hgd, Hiff. split; [done|]. intros p Hp.
    apply (proj1 Hrgiff eq_refl). by apply elem_of_elements. }
  apply (has_no_liberties_false b _ Hsq Hing) in Hrg as (p & Hp%elem_of_elements & Hlib).
  (* [p] is still in the group of [v], and its liberty is still empty *)
  assert (∀ x y, connected (stone b color) x y → x ∈ g →
                 connected (stone b' color) x y) as Htrans.
  { intros x y Hpath. induction Hpath as [x|x u y (_ & Hu & Hl) _ IH]; intros Hx;
      [apply rtc_refl|].
    assert (u ∈ g) as Hug by (by eapply (group_closed b color g x u)).
    eapply rtc_l; [|by apply IH].
    split; [by apply (Hkeep g)|]. split; [by apply (Hkeep g)|done]. }
  assert (connected (stone b' color) v p) as Hvp
    by (apply Htrans; [by apply (group_connected b color g)|done]).
  apply (proj1 Hriff eq_refl p); [by apply elem_of_elements, Hcl|].
  destruct Hlib as (q & Hq & Hqin & Hqget). exists q. split; [done|].
  split; [by apply Hib|]. rewrite Hc by done. by destruct (decide _).
Qed.

(** ** The game methods *)

Lemma dd_getitem_value (d : gmap string Z) k : (dd_getitem d k).1 = default 0 (d !! k).
Proof. unfold dd_getitem. by destruct (d !! k). Qed.

Lemma dd_getitem_lookup (d : gmap string Z) k k' :
  default 0 ((dd_getitem d k).2 !! k') = default 0 (d !! k').
Proof.
  unfold dd_getitem. destruct (d !! k) eqn:Hk; [done|]. simpl.
  destruct (decide (k = k')) as [->|]; [by rewrite lookup_insert_eq, Hk|].
  by rewrite lookup_insert_ne.
Qed.

Lemma check_winner_fst (g : Game.t) :
  (Game.check_winner g).1 =
  if bool_decide (Game.prisoner_count g "black" >= WINNING_SCORE) then Some "Black"%string
  else if bool_decide (Game.prisoner_count g "white" >= WINNING_SCORE)
       then Some "White"%string else None.
Proof.
  unfold Game.check_winner, Game.prisoner_count.
  rewrite !dd_getitem_value, dd_getitem_lookup.
  by repeat case_bool_decide.
Qed.

Lemma check_winner_snd (g : Game.t) :
  Game.board (Game.check_winner g).2 = Game.board g ∧
  Game.black_turn (Game.check_winner g).2 = Game.black_turn g ∧
  ∀ k, Game.prisoner_count (Game.check_winner g).2 k = Game.prisoner_count g k.
Proof.
  unfold Game.check_winner, Game.prisoner_count.
  repeat case_bool_decide; simpl; repeat split; try done;
    intros k; by rewrite ?dd_getitem_lookup.
Qed.

Lemma check_winner_gsize (g : Game.t) :
  Game.gsize (Game.check_winner g).2 = Game.gsize g.
Proof. unfold Game.check_winner. by repeat case_bool_decide. Qed.

(** [draw] raises at size 1 and nowhere else; when it returns it has shown
    the board and the two counts and has changed none of them. *)
Lemma draw_spec (g : Game.t) :
  (Game.gsize g = 1 → Game.draw g = None) ∧
  (Game.gsize g ≠ 1 →
   ∃ g', Game.draw g
         = Some (g', [Draw (Game.board g) (Game.prisoner_count g "black")
                           (Game.prisoner_count g "white")]) ∧
         Game.board g' = Game.board g ∧ Game.gsize g' = Game.gsize g ∧
         Game.black_turn g' = Game.black_turn g ∧
         ∀ k, Game.prisoner_count g' k = Game.prisoner_count g k).
Proof.
  unfold Game.draw, Game.clear_screen, colrow_to_xy_returns, Game.prisoner_count.
  split; intros Hsize; case_bool_decide; try lia; [done|].
  cbn [mbind option_bind].
  exists (Game.with_prisoners g
            (dd_getitem (dd_getitem (Game.prisoners g) "black").2 "white").2).
  split; [|split; [done|split; [done|split; [done|]]]].
  - by rewrite !dd_getitem_value, dd_getitem_lookup.
  - intros k. simpl. by rewrite !dd_getitem_lookup.
Qed.

Lemma game_is_valid_move_spec (g : Game.t) col row :
  square (Game.board g) →
  ∃ r, Game.is_valid_move g col row = Some r ∧
       (r = true ↔ holds (Game.board g) (col, row) 0).
Proof.
  intros Hsq. unfold Game.is_valid_move, holds, in_bounds. simpl.
  case_bool_decide as Hout.
  - exists false. split; [done|]. split; [done|]. lia.
  - destruct (getitem_is_Some (Game.board g) (col, row) Hsq) as [v Hv].
    { unfold in_bounds; simpl; lia. }
    rewrite Hv. simpl. eexists. split; [done|]. rewrite bool_decide_eq_true.
    split; [intros ->; split; [lia|done]|]. intros [_ ?]. congruence.
Qed.

(** Placing a stone on the grid: the cell is written, the opponent's colour
    is swept on the board so obtained, and the count goes to the mover. *)
Lemma place_stone_spec (g : Game.t) col row :
  square (Game.board g) → in_bounds (Game.board g) (col, row) →
  ∃ b1 ds b',
    setitem (Game.board g) (col, row) (Game.player g) = Some b1 ∧
    square b1 ∧ length b1 = length (Game.board g) ∧
    getitem b1 (col, row) = Some (Game.player g) ∧
    (∀ q, in_bounds (Game.board g) q → q ≠ (col, row) →
          getitem b1 q = getitem (Game.board g) q) ∧
    Game.capture_loop b1 (get_stone_groups b1 (Game.other_color g)) 0
      = Some (b', Z.of_nat (length (ds ≫= elements))) ∧
    square b' ∧ length b' = length b1 ∧
    (∀ group, group ∈ ds ↔ group ∈ get_stone_groups b1 (Game.other_color g) ∧
                            ∀ p, p ∈ group → ¬ liberty b1 p) ∧
    (∀ q, in_bounds b1 q →
          getitem b' q = if decide (q ∈ ds ≫= elements) then Some 0 else getitem b1 q) ∧
    Game.place_stone g col row =
      Some (Game.mk b' (Game.gsize g) (Game.black_turn g)
              (<[Game.self_color g :=
                   (dd_getitem (Game.prisoners g) (Game.self_color g)).1
                   + Z.of_nat (length (ds ≫= elements))]>
                 (dd_getitem (Game.prisoners g) (Game.self_color g)).2)).
Proof.
  intros Hsq Hin.
  destruct (setitem_spec (Game.board g) (col, row) (Game.player g) Hsq Hin)
    as (b1 & Hset & Hsq1 & Hlen1 & Hget1 & Hother1).
  destruct (capture_loop_spec b1 (Game.other_color g) Hsq1)
    as (ds & b' & _ & Hcap & Hsq' & Hlen' & Hiff & Hc).
  exists b1, ds, b'. repeat (split; [done|]).
  unfold Game.place_stone. rewrite Hset. cbn [mbind option_bind].
  unfold Game.handle_captures, Game.capture_stones.
  change (Game.other_color (Game.with_board g b1)) with (Game.other_color g).
  change (Game.self_color (Game.with_board g b1)) with (Game.self_color g).
  change (Game.board (Game.with_board g b1)) with b1.
  rewrite Hcap. done.
Qed.

(** The stone just placed is not in a group the sweep removes. *)
Lemma player_not_other (g : Game.t) : Game.player g ≠ color_code (Game.other_color g).
Proof. unfold Game.player, Game.other_color, color_code. by destruct (Game.black_turn g). Qed.

Lemma connected_within (b : ndarray) (color : string) (group : gset pos) :
  group ∈ get_stone_groups b color →
  ∀ p q, connected (stone b color) p q → p ∈ group → connected (.∈ group) p q.
Proof.
  intros Hg p q Hpath. induction Hpath as [p|p u q (_ & Hu & Hl) _ IH]; intros Hp;
    [apply rtc_refl|].
  assert (u ∈ group) as Hug by (by eapply (group_closed b color group p u)).
  eapply rtc_l; [|by apply IH]. done.
Qed.

(** A placement [is_valid_move] accepts: the state returned has the stone
    where it was put, the same player still to be toggled, and prisoner
    counts that did not go down. *)
Lemma place_stone_result (g : Game.t) (col row : Z) :
  square (Game.board g) → in_bounds (Game.board g) (col, row) →
  ∃ g', Game.place_stone g col row = Some g' ∧
        square (Game.board g') ∧
        getitem (Game.board g') (col, row) = Some (Game.player g) ∧
        Game.black_turn g' = Game.black_turn g ∧
        ∀ k, Game.prisoner_count g k ≤ Game.prisoner_count g' k.
Proof.
  intros Hsq Hin.
  destruct (place_stone_spec g col row Hsq Hin)
    as (b1 & ds & b' & _ & Hsq1 & Hlen1 & Hget1 & _ & _ & Hsq' & _ & Hiffd & Hc & Hplace).
  eexists. split; [exact Hplace|]. simpl. split; [done|]. split; [|split; [done|]].
  - rewrite Hc by (by apply (in_bounds_shape (Game.board g) b1)).
    destruct (decide ((col, row) ∈ ds ≫= elements)) as [Hdead|]; [|done].
    apply list_elem_of_bind in Hdead as (d & Hpd%elem_of_elements & Hd).
    apply Hiffd in Hd as [Hd _].
    destruct (group_stone _ _ d _ Hd Hpd) as [_ Hget]. rewrite Hget1 in Hget.
    injection Hget as Heq. by apply player_not_other in Heq.
  - intros k. unfold Game.prisoner_count. simpl.
    destruct (decide (Game.self_color g = k)) as [<-|Hne].
    + rewrite lookup_insert_eq, dd_getitem_value. simpl. lia.
    + rewrite lookup_insert_ne by done. by rewrite dd_getitem_lookup.
Qed.

Lemma init_square (size : nat) : square (Game.board (Game.init size)).
Proof. apply np_zeros_square. Qed.

(** * The claims *)

(** C5. On a square board, both [is_valid_move] functions (the module one and
    the method of [Game]) return a boolean, and it is true exactly when the
    column and the row lie in [0, N) and the cell there is empty; outside
    the range the answer is false whatever the cells hold. *)
Theorem is_valid_move_in_range_and_empty (b : ndarray) (col row : Z) :
  square b →
  (∃ r, is_valid_move col row b = Some r ∧
        (r = true ↔ (0 ≤ col < shape0 b ∧ 0 ≤ row < shape0 b) ∧
                    getitem b (col, row) = Some 0)) ∧
  (∀ g, Game.board g = b → Game.is_valid_move g col row = is_valid_move col row b) ∧
  (¬ (0 ≤ col < shape0 b ∧ 0 ≤ row < shape0 b) → is_valid_move col row b = Some false).
Proof.
  intros Hsq.
  assert (∀ g, Game.board g = b → Game.is_valid_move g col row = is_valid_move col row b)
    as Hsame.
  { intros g <-. unfold Game.is_valid_move, is_valid_move.
    repeat case_bool_decide; try done; lia. }
  split; [|split; [done|]].
  - rewrite <- (Hsame (Game.mk b 0 true ∅) eq_refl).
    apply (game_is_valid_move_spec (Game.mk b 0 true ∅) col row Hsq).
  - intros Hout. unfold is_valid_move. repeat case_bool_decide; try done; lia.
Qed.

Lemma is_valid_move_in_range_and_empty_witness :
  square [[0; 1]; [0; 0]] ∧
  ((∃ r, is_valid_move 1 1 [[0; 1]; [0; 0]] = Some r ∧
         (r = true ↔ (0 ≤ 1 < shape0 [[0; 1]; [0; 0]] ∧ 0 ≤ 1 < shape0 [[0; 1]; [0; 0]]) ∧
                     getitem [[0; 1]; [0; 0]] (1, 1) = Some 0)) ∧
   (∀ g, Game.board g = [[0; 1]; [0; 0]] →
         Game.is_valid_move g 1 1 = is_valid_move 1 1 [[0; 1]; [0; 0]]) ∧
   (¬ (0 ≤ 1 < shape0 [[0; 1]; [0; 0]] ∧ 0 ≤ 1 < shape0 [[0; 1]; [0; 0]]) →
    is_valid_move 1 1 [[0; 1]; [0; 0]] = Some false)).
Proof.
  split; [by repeat constructor|].
  apply (is_valid_move_in_range_and_empty [[0; 1]; [0; 0]] 1 1). by repeat constructor.
Defined.

(** C6. On a square board and for a group of grid positions,
    [has_no_liberties] returns a boolean, and it is true exactly when, for
    every position of the group, every lattice neighbour that lies on the
    grid is non-empty; neighbours off the grid are not looked at. *)
Theorem has_no_liberties_iff (b : ndarray) (group : list pos) :
  square b → Forall (in_bounds b) group →
  ∃ r, has_no_liberties b group = Some r ∧
       (r = true ↔
        ∀ p q, p ∈ group → q ∈ lattice p → in_bounds b q → getitem b q ≠ Some 0).
Proof.
  intros Hsq Hin. destruct (has_no_liberties_spec b group Hsq Hin) as (r & Hr & Hiff).
  exists r. split; [done|]. rewrite Hiff. unfold liberty, holds. split.
  - intros H p q Hp Hq Hqin Hget. apply (H p Hp). eauto.
  - intros H p Hp (q & Hq & Hqin & Hget). by apply (H p q).
Qed.

Lemma has_no_liberties_iff_witness :
  square [[1; 2]; [2; 0]] ∧ Forall (in_bounds [[1; 2]; [2; 0]]) [(0, 0)] ∧
  ∃ r, has_no_liberties [[1; 2]; [2; 0]] [(0, 0)] = Some r ∧
       (r = true ↔
        ∀ p q, p ∈ [(0, 0)] → q ∈ lattice p → in_bounds [[1; 2]; [2; 0]] q →
               getitem [[1; 2]; [2; 0]] q ≠ Some 0).
Proof.
  split; [by repeat constructor|].
  split; [repeat constructor; (unfold in_bounds, shape0; simpl; lia)|].
  apply (has_no_liberties_iff [[1; 2]; [2; 0]] [(0, 0)]).
  - by repeat constructor.
  - repeat constructor; unfold in_bounds, shape0; simpl; lia.
Defined.

(** C7. The groups [get_stone_groups] returns for a colour partition the
    stones of that colour: a position lies in some group exactly when it
    holds the colour; different groups are disjoint, so every stone lies in
    exactly one; any two members of a group are joined by a chain of lattice
    neighbours inside the group; a stone of the colour next to a member is a
    member (the group is maximal); and a stone without a neighbour of its
    colour is a group by itself. *)
Theorem get_stone_groups_partition (b : ndarray) (color : string) :
  (∀ p, (∃ group, group ∈ get_stone_groups b color ∧ p ∈ group) ↔ stone b color p) ∧
  (∀ i j c1 c2, get_stone_groups b color !! i = Some c1 →
                get_stone_groups b color !! j = Some c2 → i ≠ j → c1 ## c2) ∧
  (∀ p, stone b color p →
        ∃ i group, get_stone_groups b color !! i = Some group ∧ p ∈ group ∧
                   ∀ j group', get_stone_groups b color !! j = Some group' →
                               p ∈ group' → j = i) ∧
  (∀ group p q, group ∈ get_stone_groups b color → p ∈ group → q ∈ group →
                connected (.∈ group) p q) ∧
  (∀ group p q, group ∈ get_stone_groups b color → p ∈ group → q ∈ lattice p →
                stone b color q → q ∈ group) ∧
  (∀ p, stone b color p → (∀ q, q ∈ lattice p → ¬ stone b color q) →
        {[p]} ∈ get_stone_groups b color).
Proof.
  split; [|split; [|split; [|split; [|split]]]].
  - intros p. split; [|apply group_of_stone].
    intros (group & Hg & Hp). by eapply group_stone.
  - apply groups_disjoint.
  - intros p Hp. destruct (group_of_stone b color p Hp) as (group & Hg & Hpg).
    apply list_elem_of_lookup_1 in Hg as [i Hi]. exists i, group.
    split; [done|]. split; [done|]. intros j group' Hj Hpg'.
    destruct (decide (j = i)) as [|Hne]; [done|].
    destruct (groups_disjoint b color j i group' group Hj Hi Hne p Hpg' Hpg).
  - intros group p q Hg Hp Hq. apply (connected_within b color group Hg); [|done].
    by apply (group_connected b color group).
  - apply group_closed.
  - intros p Hp Halone. destruct (group_of_stone b color p Hp) as (group & Hg & Hpg).
    assert (group = {[p]}) as <-; [|done].
    apply set_eq. intros w. rewrite elem_of_singleton. split; [|by intros ->].
    intros Hw. pose proof (group_connected b color group p w Hg Hpg Hw) as Hpath.
    apply rtc_inv in Hpath as [|(u & (_ & Hu & Hl) & _)]; [done|].
    destruct (Halone u Hl Hu).
Qed.

(** C1. On every square board (so on every board reached right after a
    placement) the capture sweep of the program, which judges each group of
    the precomputed list on the board as mutated so far, returns the same
    board and the same count as the simultaneous sweep, which judges every
    group on the board as it was before any removal; it always returns, and
    every group that had no liberty on the board handed in is emptied, so two
    groups that lost their last liberty to one move both go. *)
Theorem capture_sweep_is_simultaneous (g : Game.t) (color : string) :
  square (Game.board g) →
  Game.capture_stones g color =
    (r ← capture_simultaneous (Game.board g) color;
     Some (Game.with_board g r.1, r.2)) ∧
  ∃ g' n, Game.capture_stones g color = Some (g', n) ∧
    ∀ group, group ∈ get_stone_groups (Game.board g) color →
             has_no_liberties (Game.board g) (elements group) = Some true →
             ∀ p, p ∈ group → getitem (Game.board g') p = Some 0.
Proof.
  intros Hsq. unfold Game.capture_stones.
  split; [by rewrite capture_loop_simultaneous|].
  destruct (capture_loop_spec (Game.board g) color Hsq)
    as (ds & b' & _ & Hcap & Hsq' & Hlen & Hiff & Hc).
  rewrite Hcap. cbn [mbind option_bind]. eexists _, _. split; [done|].
  intros group Hg Hdead p Hp.
  destruct (group_stone _ _ group p Hg Hp) as [Hin _].
  assert (Forall (in_bounds (Game.board g)) (elements group)) as Hall.
  { apply Forall_forall. intros x Hx%elem_of_elements.
    by destruct (group_stone _ _ group x Hg Hx). }
  destruct (has_no_liberties_spec (Game.board g) (elements group) Hsq Hall)
    as (r & Hr & Hriff).
  rewrite Hdead in Hr. injection Hr as <-.
  simpl. rewrite Hc by done. rewrite decide_True; [done|].
  apply list_elem_of_bind. exists group. split; [by apply elem_of_elements|].
  apply Hiff. split; [done|]. intros x Hx. apply (proj1 Hriff eq_refl).
  by apply elem_of_elements.
Qed.

(** C10. The capture sweep of a colour always returns, keeps the shape of the
    board, leaves every cell that does not hold that colour (the other
    colour's stones and the empty cells) as it was, and changes a cell only
    to empty; it touches neither the turn nor the prisoner counts.  So the
    pass [handle_captures] runs after a placement leaves every stone of the
    mover in place. *)
Theorem capture_sweep_frame (g : Game.t) :
  square (Game.board g) →
  (∀ color, ∃ g' n,
     Game.capture_stones g color = Some (g', n) ∧
     length (Game.board g') = length (Game.board g) ∧ square (Game.board g') ∧
     Game.black_turn g' = Game.black_turn g ∧
     Game.prisoners g' = Game.prisoners g ∧
     ∀ p, in_bounds (Game.board g) p →
          (getitem (Game.board g) p ≠ Some (color_code color) →
           getitem (Game.board g') p = getitem (Game.board g) p) ∧
          (getitem (Game.board g') p = getitem (Game.board g) p ∨
           getitem (Game.board g') p = Some 0)) ∧
  ∃ g', Game.handle_captures g = Some g' ∧
        ∀ p, in_bounds (Game.board g) p →
             getitem (Game.board g) p = Some (Game.player g) →
             getitem (Game.board g') p = Some (Game.player g).
Proof.
  intros Hsq.
  assert (∀ color, ∃ g' n,
     Game.capture_stones g color = Some (g', n) ∧
     length (Game.board g') = length (Game.board g) ∧ square (Game.board g') ∧
     Game.black_turn g' = Game.black_turn g ∧
     Game.prisoners g' = Game.prisoners g ∧
     ∀ p, in_bounds (Game.board g) p →
          (getitem (Game.board g) p ≠ Some (color_code color) →
           getitem (Game.board g') p = getitem (Game.board g) p) ∧
          (getitem (Game.board g') p = getitem (Game.board g) p ∨
           getitem (Game.board g') p = Some 0)) as Hframe.
  { intros color. unfold Game.capture_stones.
    destruct (capture_loop_spec (Game.board g) color Hsq)
      as (ds & b' & _ & Hcap & Hsq' & Hlen & Hiff & Hc).
    rewrite Hcap. cbn [mbind option_bind]. eexists _, _. split; [done|].
    simpl. repeat (split; [done|]). intros p Hp. rewrite Hc by done.
    destruct (decide (p ∈ ds ≫= elements)) as [Hdead|]; [|by split; [|left]].
    split; [|by right]. intros Hne. destruct Hne.
    apply list_elem_of_bind in Hdead as (d & Hpd%elem_of_elements & Hd).
    apply Hiff in Hd as [Hd _]. by destruct (group_stone _ _ d p Hd Hpd). }
  split; [done|].
  destruct (Hframe (Game.other_color g)) as (g' & n & Hcap & _ & _ & _ & _ & Hcells).
  unfold Game.handle_captures. rewrite Hcap. cbn [mbind option_bind].
  eexists. split; [done|]. intros p Hp Hget. simpl.
  destruct (Hcells p Hp) as [Hkeep _]. rewrite Hkeep; [done|].
  rewrite Hget. intros [= Heq]. by apply player_not_other in Heq.
Qed.

Lemma capture_sweep_frame_witness :
  square (Game.board (Game.mk [[1; 2]; [1; 0]] 2 true ∅)) ∧
  ∃ g', Game.handle_captures (Game.mk [[1; 2]; [1; 0]] 2 true ∅) = Some g' ∧
        ∀ p, in_bounds [[1; 2]; [1; 0]] p →
             getitem [[1; 2]; [1; 0]] p = Some 1 →
             getitem (Game.board g') p = Some 1.
Proof.
  split; [by repeat constructor|].
  apply (capture_sweep_frame (Game.mk [[1; 2]; [1; 0]] 2 true ∅)).
  by repeat constructor.
Defined.

Lemma capture_sweep_is_simultaneous_witness :
  square (Game.board (Game.mk [[1; 2]; [1; 0]] 2 true ∅)) ∧
  Game.capture_stones (Game.mk [[1; 2]; [1; 0]] 2 true ∅) "white" =
    (r ← capture_simultaneous [[1; 2]; [1; 0]] "white";
     Some (Game.with_board (Game.mk [[1; 2]; [1; 0]] 2 true ∅) r.1, r.2)).
Proof.
  split; [by repeat constructor|].
  apply (capture_sweep_is_simultaneous (Game.mk [[1; 2]; [1; 0]] 2 true ∅) "white").
  by repeat constructor.
Defined.

(** C8. On a square board, placing a stone at a position [is_valid_move]
    accepts (on the grid and empty) returns a state, capture pass included,
    in which that position holds the mover's colour: the stone just placed is
    not removed by the pass of its own move. *)
Theorem place_stone_keeps_stone (g : Game.t) (col row : Z) :
  square (Game.board g) → Game.is_valid_move g col row = Some true →
  ∃ g', Game.place_stone g col row = Some g' ∧
        getitem (Game.board g') (col, row) = Some (Game.player g).
Proof.
  intros Hsq Hvalid.
  destruct (game_is_valid_move_spec g col row Hsq) as (r & Hr & Hiff).
  rewrite Hvalid in Hr. injection Hr as <-. destruct (proj1 Hiff eq_refl) as [Hin _].
  destruct (place_stone_result g col row Hsq Hin) as (g' & Hplace & _ & Hget & _).
  by exists g'.
Qed.

Lemma place_stone_keeps_stone_witness :
  square (Game.board (Game.mk [[0; 2]; [2; 0]] 2 true ∅)) ∧
  Game.is_valid_move (Game.mk [[0; 2]; [2; 0]] 2 true ∅) 0 0 = Some true ∧
  ∃ g', Game.place_stone (Game.mk [[0; 2]; [2; 0]] 2 true ∅) 0 0 = Some g' ∧
        getitem (Game.board g') (0, 0) = Some 1.
Proof.
  split; [by repeat constructor|]. split; [reflexivity|].
  apply (place_stone_keeps_stone (Game.mk [[0; 2]; [2; 0]] 2 true ∅) 0 0);
    [by repeat constructor|reflexivity].
Defined.

(** C2, as amended. After a move on a square board (a placement that
    [is_valid_move] accepts, followed by the capture pass) every group of the
    opponent's colour, the colour the pass sweeps, has a liberty.  Nothing is
    said of the mover's own groups, which the pass does not look at. *)
Theorem opponent_groups_have_liberties_after_move (g : Game.t) (col row : Z) :
  square (Game.board g) → Game.is_valid_move g col row = Some true →
  ∃ g', Game.place_stone g col row = Some g' ∧
        ∀ group, group ∈ get_stone_groups (Game.board g') (Game.other_color g) →
                 has_no_liberties (Game.board g') (elements group) = Some false.
Proof.
  intros Hsq Hvalid.
  destruct (game_is_valid_move_spec g col row Hsq) as (r & Hr & Hiff).
  rewrite Hvalid in Hr. injection Hr as <-. destruct (proj1 Hiff eq_refl) as [Hin _].
  destruct (place_stone_spec g col row Hsq Hin)
    as (b1 & ds & b' & _ & Hsq1 & _ & _ & _ & Hcap & _ & _ & _ & _ & Hplace).
  eexists. split; [exact Hplace|]. simpl.
  by apply (sweep_leaves_liberties b1 b' (Game.other_color g) _ Hsq1 Hcap).
Qed.

Lemma opponent_groups_have_liberties_after_move_witness :
  square (Game.board (Game.mk [[0; 2]; [2; 0]] 2 true ∅)) ∧
  Game.is_valid_move (Game.mk [[0; 2]; [2; 0]] 2 true ∅) 0 0 = Some true ∧
  ∃ g', Game.place_stone (Game.mk [[0; 2]; [2; 0]] 2 true ∅) 0 0 = Some g' ∧
        ∀ group, group ∈ get_stone_groups (Game.board g') "white" →
                 has_no_liberties (Game.board g') (elements group) = Some false.
Proof.
  split; [by repeat constructor|]. split; [reflexivity|].
  apply (opponent_groups_have_liberties_after_move
           (Game.mk [[0; 2]; [2; 0]] 2 true ∅) 0 0);
    [by repeat constructor|reflexivity].
Defined.

(** C2 as stated fails: after Black's move into the corner of a 3 x 3 board,
    between two white stones that keep their liberties, the black stone is a
    group without liberties and stays on the board. *)
Lemma zero_liberty_group_persists :
  ∃ g effs,
    Game.update (Game.init 3)
      [MOUSEBUTTONUP 2 2; MOUSEBUTTONUP 0 1; MOUSEBUTTONUP 2 1;
       MOUSEBUTTONUP 1 0; MOUSEBUTTONUP 0 0] = Some (g, effs) ∧
    Game.board g = [[1; 2; 0]; [2; 0; 0]; [0; 1; 1]] ∧
    {[(0, 0)]} ∈ get_stone_groups (Game.board g) "black" ∧
    has_no_liberties (Game.board g) (elements ({[(0, 0)]} : gset pos)) = Some true.
Proof.
  eexists _, _. split; [vm_compute; reflexivity|].
  split; [reflexivity|]. split; [|vm_compute; reflexivity].
  vm_compute. repeat constructor.
Qed.

(** C9. On a square board, a click on a position that is off the grid or
    occupied is turned down: [handle_click] (and so [update] for that click)
    returns the very state it was given, board, turn and prisoner counts,
    and produces no effect at all. *)
Theorem invalid_click_changes_nothing (g : Game.t) (col row : Z) :
  square (Game.board g) →
  ¬ in_bounds (Game.board g) (col, row) ∨ getitem (Game.board g) (col, row) ≠ Some 0 →
  Game.handle_click g col row = Some (g, []) ∧
  Game.update g [MOUSEBUTTONUP col row] = Some (g, []).
Proof.
  intros Hsq Hbad.
  assert (Game.handle_click g col row = Some (g, [])) as Hclick.
  { unfold Game.handle_click.
    destruct (game_is_valid_move_spec g col row Hsq) as (r & -> & Hiff).
    destruct r; [|done]. destruct (proj1 Hiff eq_refl) as [? ?]. tauto. }
  split; [done|]. simpl. by rewrite Hclick.
Qed.

Lemma invalid_click_changes_nothing_witness :
  square (Game.board (Game.mk [[0; 2]; [2; 0]] 2 true ∅)) ∧
  (¬ in_bounds [[0; 2]; [2; 0]] (0, 1) ∨ getitem [[0; 2]; [2; 0]] (0, 1) ≠ Some 0) ∧
  Game.handle_click (Game.mk [[0; 2]; [2; 0]] 2 true ∅) 0 1
    = Some (Game.mk [[0; 2]; [2; 0]] 2 true ∅, []) ∧
  Game.update (Game.mk [[0; 2]; [2; 0]] 2 true ∅) [MOUSEBUTTONUP 0 1]
    = Some (Game.mk [[0; 2]; [2; 0]] 2 true ∅, []).
Proof.
  split; [by repeat constructor|]. split; [by right|].
  apply (invalid_click_changes_nothing (Game.mk [[0; 2]; [2; 0]] 2 true ∅) 0 1);
    [by repeat constructor|by right].
Defined.

(** C4. [check_winner] answers Black when Black's prisoner count is at least
    [WINNING_SCORE], which is 1; otherwise White when White's count is;
    otherwise nobody.  Black is asked first, so Black is the answer when both
    counts reach the score.  The counts, the board and the turn are as
    before. *)
Theorem check_winner_threshold (g : Game.t) :
  WINNING_SCORE = 1 ∧
  (Game.prisoner_count g "black" >= WINNING_SCORE →
   (Game.check_winner g).1 = Some "Black"%string) ∧
  (Game.prisoner_count g "black" < WINNING_SCORE →
   Game.prisoner_count g "white" >= WINNING_SCORE →
   (Game.check_winner g).1 = Some "White"%string) ∧
  (Game.prisoner_count g "black" < WINNING_SCORE →
   Game.prisoner_count g "white" < WINNING_SCORE →
   (Game.check_winner g).1 = None) ∧
  (Game.prisoner_count g "black" >= WINNING_SCORE →
   Game.prisoner_count g "white" >= WINNING_SCORE →
   (Game.check_winner g).1 = Some "Black"%string) ∧
  Game.board (Game.check_winner g).2 = Game.board g ∧
  Game.black_turn (Game.check_winner g).2 = Game.black_turn g ∧
  ∀ k, Game.prisoner_count (Game.check_winner g).2 k = Game.prisoner_count g k.
Proof.
  split; [done|]. rewrite check_winner_fst.
  repeat (split; [repeat case_bool_decide; try done; lia|]).
  apply check_winner_snd.
Qed.

(** C3. Once a winner has been determined every further move and pass
    should be turned down and change nothing.  The program does not do so:
    the winner screen, which waits for Enter "to leave", returns into
    [handle_click], and play goes on.  On a 5 x 5 board White surrounds the
    black stone at (2, 2) and captures it, and the winner message for White
    is shown; the click at (0, 0) that follows is carried out, a black
    stone appears there and the turn changes, and a pass changes the turn as
    well. *)
Lemma move_applied_after_winner :
  ∃ g effs g' effs' gp effp,
    Game.update (Game.init 5)
      [MOUSEBUTTONUP 2 2; MOUSEBUTTONUP 1 2; KEYUP_p; MOUSEBUTTONUP 3 2; KEYUP_p;
       MOUSEBUTTONUP 2 1; KEYUP_p; MOUSEBUTTONUP 2 3] = Some (g, effs) ∧
    ShowWinner "White" ∈ effs ∧
    (Game.check_winner g).1 = Some "White"%string ∧
    Game.handle_click g 0 0 = Some (g', effs') ∧
    getitem (Game.board g) (0, 0) = Some 0 ∧
    getitem (Game.board g') (0, 0) = Some 1 ∧
    Game.board g' ≠ Game.board g ∧
    Game.black_turn g = true ∧ Game.black_turn g' = false ∧
    Game.pass_move g = Some (gp, effp) ∧ Game.black_turn gp = false.
Proof.
  eexists _, _, _, _, _, _. split; [vm_compute; reflexivity|].
  split; [vm_compute; repeat constructor|].
  split; [vm_compute; reflexivity|].
  split; [vm_compute; reflexivity|].
  split; [vm_compute; reflexivity|]. split; [vm_compute; reflexivity|].
  split; [by vm_compute|]. split; [vm_compute; reflexivity|].
  split; [vm_compute; reflexivity|]. split; vm_compute; reflexivity.
Qed.

(** * Further properties of the engine *)

(** ** Groups *)

Lemma group_nonempty (b : ndarray) (color : string) (group : gset pos) :
  group ∈ get_stone_groups b color → ∃ p, p ∈ group.
Proof.
  intros Hg. destruct (get_stone_groups_spec b color) as (Ha & _ & _).
  destruct (Ha group Hg) as (v & _ & Hcl). exists v. apply Hcl, rtc_refl.
Qed.

Lemma groups_NoDup (b : ndarray) (color : string) : NoDup (get_stone_groups b color).
Proof.
  apply NoDup_alt. intros i j group Hi Hj.
  destruct (decide (i = j)) as [|Hne]; [done|].
  destruct (group_nonempty b color group (list_elem_of_lookup_2 _ _ _ Hi)) as [p Hp].
  destruct (groups_disjoint b color i j group group Hi Hj Hne p Hp Hp).
Qed.

(** X1. Every group [get_stone_groups] returns has a stone in it, no
    group is returned twice, and the list is empty exactly when the board
    holds no stone of the colour. *)
Theorem get_stone_groups_nonempty (b : ndarray) (color : string) :
  (∀ group, group ∈ get_stone_groups b color → group ≠ ∅) ∧
  NoDup (get_stone_groups b color) ∧
  (get_stone_groups b color = [] ↔ ∀ p, ¬ stone b color p).
Proof.
  split; [|split; [apply groups_NoDup|]].
  - intros group Hg ->. destruct (group_nonempty b color ∅ Hg) as [p Hp].
    by apply not_elem_of_empty in Hp.
  - split.
    + intros Hnil p Hp. destruct (group_of_stone b color p Hp) as (group & Hg & _).
      rewrite Hnil in Hg. by apply elem_of_nil in Hg.
    + intros Hnone. apply elem_of_nil_inv. intros group Hg.
      destruct (group_nonempty b color group Hg) as [p Hp].
      by apply (Hnone p), (group_stone b color group).
Qed.

(** ** What the sweep removes *)

Lemma has_no_liberties_group (b : ndarray) (color : string) (group : gset pos) :
  square b → group ∈ get_stone_groups b color →
  ∃ r, has_no_liberties b (elements group) = Some r ∧
       (r = true ↔ ∀ p, p ∈ group → ¬ liberty b p).
Proof.
  intros Hsq Hg.
  destruct (has_no_liberties_spec b (elements group) Hsq) as (r & Hr & Hiff).
  { apply Forall_forall. intros p Hp%elem_of_elements.
    by destruct (group_stone b color group p Hg Hp). }
  exists r. split; [done|]. rewrite Hiff.
  split; intros H p Hp; apply H; by apply elem_of_elements.
Qed.

(** The cells the sweep empties are those of the groups judged without
    liberties, and no other cell changes. *)
Lemma capture_loop_cells (b : ndarray) (color : string) :
  square b →
  ∃ b' n,
    Game.capture_loop b (get_stone_groups b color) 0 = Some (b', n) ∧
    square b' ∧ length b' = length b ∧
    ∀ p, in_bounds b p →
      ((∃ group, group ∈ get_stone_groups b color ∧ p ∈ group ∧
                 has_no_liberties b (elements group) = Some true) →
       getitem b' p = Some 0) ∧
      (¬ (∃ group, group ∈ get_stone_groups b color ∧ p ∈ group ∧
                   has_no_liberties b (elements group) = Some true) →
       getitem b' p = getitem b p).
Proof.
  intros Hsq.
  destruct (capture_loop_spec b color Hsq) as (ds & b' & _ & Hcap & Hsq' & Hlen & Hiff & Hc).
  exists b', (Z.of_nat (length (ds ≫= elements))). repeat (split; [done|]).
  intros p Hp. rewrite (Hc p Hp).
  assert (p ∈ ds ≫= elements ↔
          ∃ group, group ∈ get_stone_groups b color ∧ p ∈ group ∧
                   has_no_liberties b (elements group) = Some true) as Hdead.
  { rewrite list_elem_of_bind. split.
    - intros (d & Hpd%elem_of_elements & Hd). apply Hiff in Hd as [Hd Hno].
      exists d. split; [done|]. split; [done|].
      destruct (has_no_liberties_group b color d Hsq Hd) as (r & -> & Hr).
      f_equal. by apply Hr.
    - intros (d & Hd & Hpd & Hdead). exists d. split; [by apply elem_of_elements|].
      apply Hiff. split; [done|].
      destruct (has_no_liberties_group b color d Hsq Hd) as (r & Hr & Hriff).
      rewrite Hdead in Hr. injection Hr as <-. by apply Hriff. }
  destruct (decide (p ∈ ds ≫= elements)) as [Hin|Hnin]; split; try done.
  - intros Hno. destruct Hno. by apply Hdead.
  - intros Hyes. destruct Hnin. by apply Hdead.
Qed.

(** X2. The sweep of a colour changes a cell of the grid exactly when the
    cell belongs to a group of that colour that has no liberty on the board
    handed in, and then to empty: a group with a liberty keeps all its
    stones. *)
Theorem capture_changes_exactly_dead_groups (g : Game.t) (color : string) :
  square (Game.board g) →
  ∃ g' n,
    Game.capture_stones g color = Some (g', n) ∧
    ∀ p, in_bounds (Game.board g) p →
      (getitem (Game.board g') p ≠ getitem (Game.board g) p ↔
       ∃ group, group ∈ get_stone_groups (Game.board g) color ∧ p ∈ group ∧
                has_no_liberties (Game.board g) (elements group) = Some true) ∧
      (getitem (Game.board g') p ≠ getitem (Game.board g) p →
       getitem (Game.board g') p = Some 0).
Proof.
  intros Hsq. destruct (capture_loop_cells (Game.board g) color Hsq)
    as (b' & n & Hcap & _ & _ & Hcells).
  unfold Game.capture_stones. rewrite Hcap. cbn [mbind option_bind].
  eexists _, _. split; [done|]. simpl. intros p Hp.
  destruct (Hcells p Hp) as [Hdead Hkeep].
  assert (Decision (getitem b' p = getitem (Game.board g) p)) as [Heq|Hne] by apply _.
  - split; [|done]. split; [done|]. intros (group & Hg & Hpg & Hno) _.
    destruct (group_stone _ _ group p Hg Hpg) as [_ Hget].
    rewrite Hdead in Heq by eauto. rewrite Hget in Heq.
    injection Heq as Hz. symmetry in Hz. by apply color_code_nonzero in Hz.
  - assert (∃ group, group ∈ get_stone_groups (Game.board g) color ∧ p ∈ group ∧
              has_no_liberties (Game.board g) (elements group) = Some true) as Hex.
    { destruct (decide (p ∈ (get_stone_groups (Game.board g) color
                              ≫= λ group, if decide (has_no_liberties (Game.board g)
                                                       (elements group) = Some true)
                                          then elements group else [])))
        as [Hin|Hnin].
      - apply list_elem_of_bind in Hin as (group & Hpg & Hg).
        destruct (decide _) as [Hd|]; [|by apply elem_of_nil in Hpg].
        exists group. by apply elem_of_elements in Hpg.
      - destruct Hne. apply Hkeep. intros (group & Hg & Hpg & Hd). apply Hnin.
        apply list_elem_of_bind. exists group. split; [|done].
        rewrite decide_True by done. by apply elem_of_elements. }
    split; [done|]. intros _. by apply Hdead.
Qed.

Lemma capture_changes_exactly_dead_groups_witness :
  square (Game.board (Game.mk [[1; 2]; [1; 1]] 2 true ∅)) ∧
  ∃ g' n,
    Game.capture_stones (Game.mk [[1; 2]; [1; 1]] 2 true ∅) "white" = Some (g', n) ∧
    ∀ p, in_bounds [[1; 2]; [1; 1]] p →
      (getitem (Game.board g') p ≠ getitem [[1; 2]; [1; 1]] p ↔
       ∃ group, group ∈ get_stone_groups [[1; 2]; [1; 1]] "white" ∧ p ∈ group ∧
                has_no_liberties [[1; 2]; [1; 1]] (elements group) = Some true) ∧
      (getitem (Game.board g') p ≠ getitem [[1; 2]; [1; 1]] p →
       getitem (Game.board g') p = Some 0).
Proof.
  split; [by repeat constructor|].
  apply (capture_changes_exactly_dead_groups (Game.mk [[1; 2]; [1; 1]] 2 true ∅) "white").
  by repeat constructor.
Defined.

(** ** Counting stones *)

Lemma filter_ext_in {A} (P Q : A → Prop) `{!∀ x, Decision (P x), !∀ x, Decision (Q x)}
    (l : list A) :
  (∀ x, x ∈ l → (P x ↔ Q x)) → filter P l = filter Q l.
Proof.
  induction l as [|a l IH]; intros Hext; [done|].
  rewrite !filter_cons.
  rewrite IH by (intros x Hx; apply Hext; by right).
  destruct (decide (P a)) as [HP|HP], (decide (Q a)) as [HQ|HQ]; try done.
  - destruct HQ. by apply (Hext a); [left|].
  - destruct HP. by apply (Hext a); [left|].
Qed.

Lemma filter_out_length (l d : list pos) :
  NoDup l → NoDup d → (∀ x, x ∈ d → x ∈ l) →
  (length l = length (filter (λ x, x ∉ d) l) + length d)%nat.
Proof.
  intros Hl Hd Hsub.
  rewrite <- (Permutation_length (filter_app_complement (λ x, x ∈ d) l)).
  rewrite length_app.
  assert (filter (λ x, x ∈ d) l ≡ₚ d) as ->; [|lia].
  apply NoDup_Permutation; [by apply NoDup_filter|done|].
  intros x. rewrite list_elem_of_filter. naive_solver.
Qed.

Lemma NoDup_product_range n : NoDup (product_range n).
Proof.
  unfold product_range. apply NoDup_bind.
  - intros x1 x2 p _ _ (y1 & Hp1 & _)%list_elem_of_bind (y2 & Hp2 & _)%list_elem_of_bind.
    apply list_elem_of_singleton in Hp1, Hp2. congruence.
  - intros x _. apply NoDup_bind.
    + intros y1 y2 p _ _ Hp1 Hp2. apply list_elem_of_singleton in Hp1, Hp2. congruence.
    + intros y _. apply NoDup_singleton.
    + apply NoDup_seqZ.
  - apply NoDup_seqZ.
Qed.

Lemma NoDup_np_where (b : ndarray) code : NoDup (np_where b code).
Proof. unfold np_where. apply NoDup_filter, NoDup_product_range. Qed.

Lemma elem_of_np_where (b : ndarray) code p : p ∈ np_where b code ↔ holds b p code.
Proof.
  unfold np_where, holds, in_bounds. rewrite list_elem_of_filter, elem_of_product_range.
  tauto.
Qed.

Lemma dead_groups_sublist (b : ndarray) (groups : list (gset pos)) : ∀ ds,
  dead_groups b groups = Some ds → ds `sublist_of` groups.
Proof.
  induction groups as [|group groups IH]; intros ds; simpl.
  - intros [= <-]. constructor.
  - destruct (has_no_liberties b (elements group)) as [r|]; [|done]. simpl.
    destruct (dead_groups b groups) as [ds'|]; [|done]. simpl.
    intros [= <-]. destruct r; [apply sublist_skip|apply sublist_cons]; by apply IH.
Qed.

(** The cells of the groups found without liberties, listed without
    repetition, are stones of the colour. *)
Lemma dead_cells_NoDup (b : ndarray) (color : string) (ds : list (gset pos)) :
  dead_groups b (get_stone_groups b color) = Some ds →
  NoDup (ds ≫= elements) ∧ ∀ p, p ∈ ds ≫= elements → stone b color p.
Proof.
  intros Hds. pose proof (dead_groups_sublist _ _ _ Hds) as Hsub.
  assert (∀ d, d ∈ ds → d ∈ get_stone_groups b color) as Hin.
  { intros d Hd. by eapply elem_of_sublist. }
  split.
  - apply NoDup_bind.
    + intros d1 d2 p Hd1 Hd2 Hp1%elem_of_elements Hp2%elem_of_elements.
      by apply (groups_equal_or_disjoint b color d1 d2 p); auto.
    + intros d _. apply NoDup_elements.
    + eapply sublist_NoDup; [apply groups_NoDup|done].
  - intros p (d & Hp%elem_of_elements & Hd)%list_elem_of_bind.
    apply (group_stone b color d); [by apply Hin|done].
Qed.

(** The stones of a colour before the sweep are those after it and the
    ones counted; stones of another colour are where they were. *)
Lemma capture_loop_count (b : ndarray) (color : string) :
  square b →
  ∃ b' (k : nat),
    Game.capture_loop b (get_stone_groups b color) 0 = Some (b', Z.of_nat k) ∧
    (length (np_where b (color_code color))
     = length (np_where b' (color_code color)) + k)%nat ∧
    ∀ v, v ≠ 0 → v ≠ color_code color → np_where b' v = np_where b v.
Proof.
  intros Hsq.
  destruct (capture_loop_spec b color Hsq) as (ds & b' & Hds & Hcap & Hsq' & Hlen & Hiff & Hc).
  destruct (dead_cells_NoDup b color ds Hds) as [Hnd Hstones].
  exists b', (length (ds ≫= elements)). split; [done|].
  assert (shape0 b' = shape0 b) as Hshape by (unfold shape0; by rewrite Hlen).
  assert (∀ v p, p ∈ product_range (shape0 b) →
            (getitem b' p = Some v ↔
             if decide (p ∈ ds ≫= elements) then v = 0 else getitem b p = Some v))
    as Hcell.
  { intros v p Hp%elem_of_product_range. rewrite Hc by done.
    destruct (decide _); [|done]. split; [by intros [= <-]|by intros ->]. }
  split.
  - rewrite (filter_out_length (np_where b (color_code color)) (ds ≫= elements));
      [|apply NoDup_np_where|done|].
    + f_equal. f_equal. unfold np_where. rewrite Hshape, list_filter_filter.
      apply filter_ext_in. intros p Hp. rewrite (Hcell _ p Hp).
      destruct (decide _) as [Hin|Hnin]; [|tauto].
      split; [tauto|intros Hz; by apply color_code_nonzero in Hz].
    + intros p Hp. apply elem_of_np_where. by apply Hstones.
  - intros v Hv Hne. unfold np_where. rewrite Hshape.
    apply filter_ext_in. intros p Hp. rewrite (Hcell _ p Hp).
    destruct (decide _) as [Hin|]; [|done].
    destruct (Hstones p Hin) as [_ Hget]. split; [done|]. congruence.
Qed.

(** X3. The number [capture_stones] returns is the number of stones of
    the swept colour that leave the board: the stones of that colour before
    the sweep are as many as after it plus the count.  The stones of the
    other colour are exactly where they were. *)
Theorem capture_count_is_stones_removed (g : Game.t) (color : string) :
  square (Game.board g) →
  ∃ g' n,
    Game.capture_stones g color = Some (g', n) ∧ 0 ≤ n ∧
    Z.of_nat (length (np_where (Game.board g) (color_code color)))
    = Z.of_nat (length (np_where (Game.board g') (color_code color))) + n ∧
    ∀ v, v ≠ 0 → v ≠ color_code color →
         np_where (Game.board g') v = np_where (Game.board g) v.
Proof.
  intros Hsq.
  destruct (capture_loop_count (Game.board g) color Hsq) as (b' & k & Hcap & Hlen & Hother).
  unfold Game.capture_stones. rewrite Hcap. cbn [mbind option_bind].
  eexists _, _. split; [done|]. simpl. split; [lia|]. split; [lia|done].
Qed.

Lemma capture_count_is_stones_removed_witness :
  square (Game.board (Game.mk [[1; 2]; [1; 1]] 2 true ∅)) ∧
  ∃ g' n,
    Game.capture_stones (Game.mk [[1; 2]; [1; 1]] 2 true ∅) "white" = Some (g', n) ∧
    0 ≤ n ∧
    Z.of_nat (length (np_where [[1; 2]; [1; 1]] (color_code "white")))
    = Z.of_nat (length (np_where (Game.board g') (color_code "white"))) + n ∧
    ∀ v, v ≠ 0 → v ≠ color_code "white" →
         np_where (Game.board g') v = np_where [[1; 2]; [1; 1]] v.
Proof.
  split; [by repeat constructor|].
  apply (capture_count_is_stones_removed (Game.mk [[1; 2]; [1; 1]] 2 true ∅) "white").
  by repeat constructor.
Defined.

(** ** A sweep that finds nothing, and a second sweep *)

Lemma capture_loop_noop (b : ndarray) (color : string) :
  square b →
  (∀ group, group ∈ get_stone_groups b color →
            has_no_liberties b (elements group) = Some false) →
  Game.capture_loop b (get_stone_groups b color) 0 = Some (b, 0).
Proof.
  intros Hsq Hall. rewrite capture_loop_simultaneous by done. unfold capture_simultaneous.
  destruct (dead_groups_spec b (get_stone_groups b color) Hsq) as (ds & -> & Hiff).
  { intros group p Hg Hp. by destruct (group_stone b color group p Hg Hp). }
  assert (ds = []) as ->; [|done].
  apply elem_of_nil_inv. intros d [Hd Hno]%Hiff.
  destruct (has_no_liberties_group b color d Hsq Hd) as (r & Hr & Hriff).
  rewrite (Hall d Hd) in Hr. injection Hr as <-. by apply Hriff in Hno.
Qed.

(** X4. [capture_stones] returns 0 exactly when every group of the colour
    has a liberty, and it then returns the state it was given. *)
Theorem capture_nothing_iff_all_groups_alive (g : Game.t) (color : string) :
  square (Game.board g) →
  ∃ g' n,
    Game.capture_stones g color = Some (g', n) ∧
    (n = 0 ↔ ∀ group, group ∈ get_stone_groups (Game.board g) color →
                      has_no_liberties (Game.board g) (elements group) = Some false) ∧
    (n = 0 → g' = g).
Proof.
  intros Hsq.
  destruct (capture_loop_spec (Game.board g) color Hsq)
    as (ds & b' & _ & Hcap & _ & _ & Hiff & _).
  assert ((∀ group, group ∈ get_stone_groups (Game.board g) color →
             has_no_liberties (Game.board g) (elements group) = Some false) →
          b' = Game.board g ∧ length (ds ≫= elements) = 0%nat) as Hnoop.
  { intros Hall. rewrite (capture_loop_noop _ _ Hsq Hall) in Hcap.
    injection Hcap as <- Hn. split; [done|lia]. }
  assert (length (ds ≫= elements) = 0%nat →
          ∀ group, group ∈ get_stone_groups (Game.board g) color →
                   has_no_liberties (Game.board g) (elements group) = Some false) as Hback.
  { intros Hlen group Hg.
    destruct (has_no_liberties_group _ color group Hsq Hg) as (r & -> & Hr).
    destruct r; [|done]. exfalso.
    destruct (group_nonempty _ _ group Hg) as [p Hp].
    assert (p ∈ ds ≫= elements) as Hin.
    { apply list_elem_of_bind. exists group. split; [by apply elem_of_elements|].
      apply Hiff. split; [done|]. by apply Hr. }
    apply length_zero_iff_nil in Hlen. rewrite Hlen in Hin. by apply elem_of_nil in Hin. }
  unfold Game.capture_stones. rewrite Hcap. cbn [mbind option_bind].
  eexists _, _. split; [done|]. simpl. split; [split|].
  - intros Hn. apply Hback. lia.
  - intros Hall. destruct (Hnoop Hall) as [_ ->]. done.
  - intros Hn. destruct Hnoop as [-> _]; [apply Hback; lia|]. by destruct g.
Qed.

Lemma capture_nothing_iff_all_groups_alive_witness :
  square (Game.board (Game.mk [[1; 2]; [1; 0]] 2 true ∅)) ∧
  ∃ g' n,
    Game.capture_stones (Game.mk [[1; 2]; [1; 0]] 2 true ∅) "white" = Some (g', n) ∧
    (n = 0 ↔ ∀ group, group ∈ get_stone_groups [[1; 2]; [1; 0]] "white" →
                      has_no_liberties [[1; 2]; [1; 0]] (elements group) = Some false) ∧
    (n = 0 → g' = Game.mk [[1; 2]; [1; 0]] 2 true ∅).
Proof.
  split; [by repeat constructor|].
  apply (capture_nothing_iff_all_groups_alive (Game.mk [[1; 2]; [1; 0]] 2 true ∅) "white").
  by repeat constructor.
Defined.

(** X5. Sweeping a colour a second time finds nothing: after
    [capture_stones] the same call returns the state unchanged and the
    count 0. *)
Theorem capture_twice_is_capture_once (g g' : Game.t) (color : string) n :
  square (Game.board g) →
  Game.capture_stones g color = Some (g', n) →
  Game.capture_stones g' color = Some (g', 0).
Proof.
  intros Hsq Hcap. unfold Game.capture_stones in Hcap.
  destruct (Game.capture_loop _ _ 0) as [[b' k]|] eqn:Hloop; [|done].
  injection Hcap as <- <-. simpl in *.
  destruct (capture_loop_spec (Game.board g) color Hsq) as (ds & b1 & _ & Hcap1 & Hsq' & _).
  rewrite Hloop in Hcap1. injection Hcap1 as <- _.
  unfold Game.capture_stones. simpl. rewrite (capture_loop_noop b' color Hsq'); [done|].
  by apply (sweep_leaves_liberties (Game.board g) b' color k).
Qed.

Lemma capture_twice_is_capture_once_witness :
  square (Game.board (Game.mk [[1; 2]; [1; 1]] 2 true ∅)) ∧
  Game.capture_stones (Game.mk [[1; 2]; [1; 1]] 2 true ∅) "white"
    = Some (Game.mk [[1; 0]; [1; 1]] 2 true ∅, 1) ∧
  Game.capture_stones (Game.mk [[1; 0]; [1; 1]] 2 true ∅) "white"
    = Some (Game.mk [[1; 0]; [1; 1]] 2 true ∅, 0).
Proof.
  split; [by repeat constructor|]. split; [by vm_compute|].
  apply (capture_twice_is_capture_once (Game.mk [[1; 2]; [1; 1]] 2 true ∅) _ "white" 1);
    [by repeat constructor|by vm_compute].
Defined.

(** ** A move, stone by stone *)

(** Putting a stone on an empty cell adds one stone of its colour and
    leaves the stones of the other colours where they were. *)
Lemma setitem_count (b b1 : ndarray) p v :
  square b → holds b p 0 → v ≠ 0 → setitem b p v = Some b1 →
  (length (np_where b1 v) = length (np_where b v) + 1)%nat ∧
  ∀ w, w ≠ 0 → w ≠ v → np_where b1 w = np_where b w.
Proof.
  intros Hsq [Hin Hempty] Hv Hset.
  destruct (setitem_spec b p v Hsq Hin) as (b1' & Hset' & Hsq1 & Hlen1 & Hget1 & Hother1).
  rewrite Hset in Hset'. injection Hset' as <-.
  assert (shape0 b1 = shape0 b) as Hshape by (unfold shape0; by rewrite Hlen1).
  split.
  - rewrite (filter_out_length (np_where b1 v) [p]);
      [|apply NoDup_np_where|apply NoDup_singleton|].
    + simpl. f_equal. f_equal. unfold np_where. rewrite Hshape, list_filter_filter.
      apply filter_ext_in. intros x Hx%elem_of_product_range.
      destruct (decide (x = p)) as [->|Hne].
      * rewrite Hempty. split; [|intros [= Hz]; by destruct Hv].
        intros [Hnot _]. destruct Hnot. left.
      * rewrite Hother1 by done. split; [tauto|]. intros Hget. split; [|done].
        by intros ->%list_elem_of_singleton.
    + intros x ->%list_elem_of_singleton. apply elem_of_np_where.
      split; [by apply (in_bounds_shape b b1)|done].
  - intros w Hw Hne. unfold np_where. rewrite Hshape.
    apply filter_ext_in. intros x Hx%elem_of_product_range.
    destruct (decide (x = p)) as [->|Hnp].
    + rewrite Hget1, Hempty. split; intros [= ?]; congruence.
    + by rewrite Hother1.
Qed.

Lemma player_nonzero (g : Game.t) : Game.player g ≠ 0.
Proof. unfold Game.player. by destruct (Game.black_turn g). Qed.

Lemma self_other_color (g : Game.t) :
  Game.self_color g ≠ Game.other_color g ∧
  color_code (Game.self_color g) = Game.player g.
Proof. unfold Game.self_color, Game.other_color, Game.player. by destruct (Game.black_turn g). Qed.

Lemma place_stone_gsize (g g1 : Game.t) (col row : Z) :
  Game.place_stone g col row = Some g1 → Game.gsize g1 = Game.gsize g.
Proof.
  unfold Game.place_stone, Game.handle_captures, Game.capture_stones.
  destruct (setitem _ _ _) as [b1|]; [|done]. cbn [mbind option_bind].
  destruct (Game.capture_loop _ _ 0) as [[b' k]|]; [|done]. cbn [mbind option_bind].
  by intros [= <-].
Qed.

(** A pass raises at size 1; at any other size it redraws and hands the
    turn over, and nothing else changes. *)
Lemma pass_move_spec (g : Game.t) :
  (Game.gsize g = 1 → Game.pass_move g = None) ∧
  (Game.gsize g ≠ 1 →
   ∃ g', Game.pass_move g
         = Some (g', [Draw (Game.board g) (Game.prisoner_count g "black")
                           (Game.prisoner_count g "white")]) ∧
         Game.board g' = Game.board g ∧ Game.gsize g' = Game.gsize g ∧
         Game.black_turn g' = negb (Game.black_turn g) ∧
         ∀ k, Game.prisoner_count g' k = Game.prisoner_count g k).
Proof.
  destruct (draw_spec (Game.with_black_turn g (negb (Game.black_turn g)))) as [H1 H2].
  split; [exact H1|exact H2].
Qed.

(** What a click on a position of the grid that is empty does, in terms of
    the state [place_stone] returns: the redraw that ends it raises at size
    1 and goes through at any other size. *)
Lemma handle_click_raises (g : Game.t) (col row : Z) :
  square (Game.board g) → holds (Game.board g) (col, row) 0 → Game.gsize g = 1 →
  Game.handle_click g col row = None.
Proof.
  intros Hsq Hholds Hsize. pose proof Hholds as [Hin _].
  destruct (game_is_valid_move_spec g col row Hsq) as (r & Hvalid & Hiff).
  apply Hiff in Hholds as ->.
  destruct (place_stone_result g col row Hsq Hin) as (g1 & Hplace & _).
  pose proof (place_stone_gsize g g1 col row Hplace) as Hgs.
  unfold Game.handle_click. rewrite Hvalid. cbn [mbind option_bind negb].
  rewrite Hplace. cbn [mbind option_bind].
  rewrite (proj1 (draw_spec _)); [done|].
  simpl. by rewrite check_winner_gsize, Hgs.
Qed.

Lemma handle_click_valid (g : Game.t) (col row : Z) :
  square (Game.board g) → holds (Game.board g) (col, row) 0 → Game.gsize g ≠ 1 →
  ∃ g1 g',
    Game.place_stone g col row = Some g1 ∧
    Game.handle_click g col row =
      Some (g', PlaySound ::
                match (Game.check_winner g1).1 with
                | Some w => [ShowWinner w]
                | None => []
                end ++
                [Draw (Game.board g1) (Game.prisoner_count g1 "black")
                      (Game.prisoner_count g1 "white")]) ∧
    Game.board g' = Game.board g1 ∧
    Game.black_turn g' = negb (Game.black_turn g) ∧
    Game.gsize g' = Game.gsize g ∧
    ∀ k, Game.prisoner_count g' k = Game.prisoner_count g1 k.
Proof.
  intros Hsq Hholds Hsize. pose proof Hholds as [Hin _].
  destruct (game_is_valid_move_spec g col row Hsq) as (r & Hvalid & Hiff).
  apply Hiff in Hholds as ->.
  destruct (place_stone_result g col row Hsq Hin) as (g1 & Hplace & _ & _ & Hturn & _).
  pose proof (place_stone_gsize g g1 col row Hplace) as Hgs.
  exists g1. unfold Game.handle_click. rewrite Hvalid. cbn [mbind option_bind negb].
  rewrite Hplace. cbn [mbind option_bind].
  destruct (check_winner_snd g1) as (Hb & Ht & Hk).
  set (g2 := Game.with_black_turn _ _).
  assert (∀ k, Game.prisoner_count g2 k = Game.prisoner_count g1 k) as Hg2
    by (intros k; rewrite <- Hk; reflexivity).
  assert (Game.board g2 = Game.board g1) as Hb2 by (by rewrite <- Hb).
  assert (Game.gsize g2 = Game.gsize g) as Hs2.
  { subst g2. simpl. by rewrite check_winner_gsize. }
  assert (Game.black_turn g2 = negb (Game.black_turn g)) as Ht2.
  { subst g2. simpl. by rewrite Ht, Hturn. }
  destruct (proj2 (draw_spec g2)) as (g' & Hdraw & Hdb & Hds & Hdt & Hdk);
    [by rewrite Hs2|].
  rewrite Hdraw. cbn [mbind option_bind fst snd]. exists g'. split; [done|].
  rewrite Hb2, !Hg2. split; [done|]. split; [congruence|]. split; [congruence|].
  split; [congruence|]. intros k. by rewrite Hdk, Hg2.
Qed.

(** The state [place_stone] returns, stone by stone and count by count. *)
Lemma place_stone_count (g : Game.t) (col row : Z) :
  square (Game.board g) → holds (Game.board g) (col, row) 0 →
  ∃ g1 (k : nat),
    Game.place_stone g col row = Some g1 ∧
    Game.prisoner_count g1 (Game.self_color g)
      = Game.prisoner_count g (Game.self_color g) + Z.of_nat k ∧
    (∀ c, c ≠ Game.self_color g → Game.prisoner_count g1 c = Game.prisoner_count g c) ∧
    (length (np_where (Game.board g) (color_code (Game.other_color g)))
     = length (np_where (Game.board g1) (color_code (Game.other_color g))) + k)%nat ∧
    (length (np_where (Game.board g1) (Game.player g))
     = length (np_where (Game.board g) (Game.player g)) + 1)%nat.
Proof.
  intros Hsq Hholds. pose proof Hholds as [Hin _].
  destruct (place_stone_spec g col row Hsq Hin)
    as (b1 & ds & b' & Hset & Hsq1 & _ & _ & _ & Hcap & _ & _ & _ & _ & Hplace).
  destruct (capture_loop_count b1 (Game.other_color g) Hsq1) as (b'' & k & Hcap' & Hcount & Hothers).
  rewrite Hcap in Hcap'. injection Hcap' as <- Hk.
  destruct (setitem_count _ b1 (col, row) (Game.player g) Hsq Hholds (player_nonzero g) Hset)
    as [Hplus Hsame].
  destruct (self_other_color g) as [Hso Hcode].
  eexists _, k. split; [exact Hplace|]. unfold Game.prisoner_count. simpl. split; [|split; [|split]].
  - rewrite lookup_insert_eq, dd_getitem_value. simpl. lia.
  - intros c Hc. rewrite lookup_insert_ne by done. by rewrite dd_getitem_lookup.
  - rewrite <- Hcount. f_equal. symmetry. apply Hsame; [apply color_code_nonzero|].
    intros Heq. by apply (player_not_other g).
  - rewrite <- Hplus. f_equal. apply Hothers; [apply player_nonzero|apply player_not_other].
Qed.

(** X6. On a board of a size other than 1 (at size 1 the redraw raises), a
    click on an empty position of the grid is a move: the turn goes to the
    other player, exactly one stone of the mover is added to the board, the
    opponent loses some number [n] of stones from the board, the mover's
    prisoner count grows by that same [n], and the opponent's prisoner
    count stays. *)
Theorem move_bookkeeping (g : Game.t) (col row : Z) :
  square (Game.board g) → holds (Game.board g) (col, row) 0 → Game.gsize g ≠ 1 →
  ∃ g' effs n,
    Game.handle_click g col row = Some (g', effs) ∧ 0 ≤ n ∧
    Game.black_turn g' = negb (Game.black_turn g) ∧
    Game.prisoner_count g' (Game.self_color g)
      = Game.prisoner_count g (Game.self_color g) + n ∧
    Game.prisoner_count g' (Game.other_color g)
      = Game.prisoner_count g (Game.other_color g) ∧
    Z.of_nat (length (np_where (Game.board g) (color_code (Game.other_color g))))
      = Z.of_nat (length (np_where (Game.board g') (color_code (Game.other_color g)))) + n ∧
    Z.of_nat (length (np_where (Game.board g') (Game.player g)))
      = Z.of_nat (length (np_where (Game.board g) (Game.player g))) + 1.
Proof.
  intros Hsq Hholds Hsize.
  destruct (handle_click_valid g col row Hsq Hholds Hsize)
    as (g1 & g' & Hplace & Hclick & Hb & Ht & _ & Hk).
  destruct (place_stone_count g col row Hsq Hholds)
    as (g1' & k & Hplace' & Hself & Hoth & Hopp & Hmine).
  rewrite Hplace in Hplace'. injection Hplace' as <-.
  destruct (self_other_color g) as [Hso _].
  eexists g', _, (Z.of_nat k). split; [exact Hclick|]. rewrite Hb, !Hk.
  split; [lia|]. split; [done|]. split; [done|].
  split; [by apply Hoth|]. split; lia.
Qed.

Lemma move_bookkeeping_witness :
  square (Game.board (Game.mk [[1; 2]; [0; 1]] 2 true ∅)) ∧
  holds [[1; 2]; [0; 1]] (1, 0) 0 ∧
  Game.gsize (Game.mk [[1; 2]; [0; 1]] 2 true ∅) ≠ 1 ∧
  ∃ g' effs n,
    Game.handle_click (Game.mk [[1; 2]; [0; 1]] 2 true ∅) 1 0 = Some (g', effs) ∧
    0 ≤ n ∧ Game.black_turn g' = negb true ∧
    Game.prisoner_count g' "black" = 0 + n.
Proof.
  assert (holds [[1; 2]; [0; 1]] (1, 0) 0) as Hholds.
  { split; [unfold in_bounds, shape0; simpl; lia|reflexivity]. }
  split; [by repeat constructor|]. split; [exact Hholds|]. split; [done|].
  destruct (move_bookkeeping (Game.mk [[1; 2]; [0; 1]] 2 true ∅) 1 0)
    as (g' & effs & n & Hclick & Hn & Ht & Hself & _);
    [by repeat constructor|exact Hholds|done|].
  exists g', effs, n. repeat split; try done; lia.
Defined.

(** ** What every run of the game keeps *)

Lemma np_zeros_getitem (size : nat) p :
  in_bounds (np_zeros size) p → getitem (np_zeros size) p = Some 0.
Proof.
  intros Hin.
  destruct (getitem_in_bounds _ p (np_zeros_square size) Hin) as (r & Hr & Hget & [v Hv]).
  rewrite Hv. rewrite Hget in Hv. unfold np_zeros in Hr.
  apply lookup_replicate in Hr as [-> _]. by apply lookup_replicate in Hv as [-> _].
Qed.

(** A click that is handled, whatever the position: the board keeps its
    shape, its cells stay among 0, 1 and 2 when they were, the size stays,
    and no prisoner count goes down. *)
Lemma handle_click_inv (g g' : Game.t) (col row : Z) effs :
  square (Game.board g) → Game.handle_click g col row = Some (g', effs) →
  square (Game.board g') ∧ length (Game.board g') = length (Game.board g) ∧
  Game.gsize g' = Game.gsize g ∧
  (∀ k, Game.prisoner_count g k ≤ Game.prisoner_count g' k) ∧
  ((∀ p, in_bounds (Game.board g) p → getitem (Game.board g) p = Some 0 ∨
           getitem (Game.board g) p = Some 1 ∨ getitem (Game.board g) p = Some 2) →
   ∀ p, in_bounds (Game.board g') p → getitem (Game.board g') p = Some 0 ∨
          getitem (Game.board g') p = Some 1 ∨ getitem (Game.board g') p = Some 2).
Proof.
  intros Hsq Hclick.
  destruct (game_is_valid_move_spec g col row Hsq) as (r & Hvalid & Hiff).
  destruct r.
  - pose proof (proj1 Hiff eq_refl) as Hholds. pose proof Hholds as [Hin _].
    destruct (decide (Game.gsize g = 1)) as [Hone|Hsize].
    { by rewrite (handle_click_raises g col row Hsq Hholds Hone) in Hclick. }
    destruct (handle_click_valid g col row Hsq Hholds Hsize)
      as (g1 & g'' & Hplace & Hclick' & Hb & Ht & Hgs & Hk).
    rewrite Hclick in Hclick'. injection Hclick' as -> _.
    destruct (place_stone_result g col row Hsq Hin) as (g1' & Hplace' & Hsq1 & _ & _ & Hmono).
    rewrite Hplace in Hplace'. injection Hplace' as <-.
    destruct (place_stone_spec g col row Hsq Hin)
      as (b1 & ds & b' & _ & _ & Hlen1 & Hget1 & Hother1 & _ & _ & Hlen' & _ & Hc & Hplace'').
    rewrite Hplace in Hplace''. injection Hplace'' as Hg1.
    assert (Game.board g1 = b') as Hb1 by (by rewrite Hg1).
    rewrite Hb, Hb1.
    split; [by rewrite <- Hb1|]. split; [congruence|]. split; [done|]. split.
    { intros k. rewrite Hk. apply Hmono. }
    intros Hok p Hp.
    assert (in_bounds (Game.board g) p) as Hp0.
    { apply (in_bounds_shape (Game.board g) b'); [congruence|done]. }
    rewrite Hc by (by apply (in_bounds_shape (Game.board g) b1)).
    destruct (decide _); [by left|].
    destruct (decide (p = (col, row))) as [->|Hne].
    + rewrite Hget1. unfold Game.player. destruct (Game.black_turn g); auto.
    + rewrite Hother1 by done. by apply Hok.
  - unfold Game.handle_click in Hclick. rewrite Hvalid in Hclick.
    cbn [mbind option_bind negb] in Hclick. injection Hclick as <- _.
    split; [done|]. split; [done|]. split; [done|]. split; [|done].
    intros k. lia.
Qed.

(** At a size other than 1 every click is handled. *)
Lemma handle_click_total (g : Game.t) (col row : Z) :
  square (Game.board g) → Game.gsize g ≠ 1 →
  ∃ g' effs, Game.handle_click g col row = Some (g', effs).
Proof.
  intros Hsq Hsize.
  destruct (game_is_valid_move_spec g col row Hsq) as (r & Hvalid & Hiff).
  destruct r.
  - destruct (handle_click_valid g col row Hsq (proj1 Hiff eq_refl) Hsize)
      as (g1 & g' & _ & Hclick & _). by eexists _, _.
  - unfold Game.handle_click. rewrite Hvalid. by eexists _, _.
Qed.

Lemma update_inv (events : list event) : ∀ (g g' : Game.t) effs,
  square (Game.board g) → Game.update g events = Some (g', effs) →
  square (Game.board g') ∧ length (Game.board g') = length (Game.board g) ∧
  Game.gsize g' = Game.gsize g ∧
  (∀ k, Game.prisoner_count g k ≤ Game.prisoner_count g' k) ∧
  ((∀ p, in_bounds (Game.board g) p → getitem (Game.board g) p = Some 0 ∨
           getitem (Game.board g) p = Some 1 ∨ getitem (Game.board g) p = Some 2) →
   ∀ p, in_bounds (Game.board g') p → getitem (Game.board g') p = Some 0 ∨
          getitem (Game.board g') p = Some 1 ∨ getitem (Game.board g') p = Some 2).
Proof.
  induction events as [|[col row| | |] events IH]; intros g g' effs Hsq;
    cbn [Game.update].
  - intros [= <- _]. split; [done|]. split; [done|]. split; [done|].
    split; [intros; lia|done].
  - destruct (Game.handle_click g col row) as [[g1 e1]|] eqn:Hclick; [|done].
    cbn [mbind option_bind fst snd].
    destruct (Game.update g1 events) as [[g2 e2]|] eqn:Hupd; [|done].
    cbn [mbind option_bind fst snd]. intros [= <- _].
    destruct (handle_click_inv g g1 col row e1 Hsq Hclick) as (Hsq1 & Hlen1 & Hs1 & Hm1 & Hok1).
    destruct (IH g1 g2 e2 Hsq1 Hupd) as (Hsq2 & Hlen2 & Hs2 & Hm2 & Hok2).
    split; [done|]. split; [congruence|]. split; [congruence|].
    split; [|auto]. intros k. specialize (Hm1 k). specialize (Hm2 k). lia.
  - intros [= <- _]. split; [done|]. split; [done|]. split; [done|].
    split; [intros; lia|done].
  - destruct (Game.pass_move g) as [[g1 e1]|] eqn:Hpass; [|done].
    cbn [mbind option_bind fst snd].
    destruct (Game.update g1 events) as [[g2 e2]|] eqn:Hupd; [|done].
    cbn [mbind option_bind fst snd]. intros [= <- _].
    destruct (pass_move_spec g) as [Hraise Hret].
    destruct (decide (Game.gsize g = 1)) as [Hone|Hsize];
      [by rewrite (Hraise Hone) in Hpass|].
    destruct (Hret Hsize) as (g1' & Hpass' & Hb & Hs & _ & Hk).
    rewrite Hpass in Hpass'. injection Hpass' as <- _.
    destruct (IH g1 g2 e2) as (Hsq2 & Hlen2 & Hs2 & Hm2 & Hok2);
      [by rewrite Hb|done|].
    rewrite Hb in Hlen2, Hok2.
    split; [done|]. split; [done|]. split; [congruence|].
    split; [|done]. intros k. specialize (Hm2 k). by rewrite Hk in Hm2.
  - by apply IH.
Qed.

(** At a size other than 1 every run of [update] goes through. *)
Lemma update_total (events : list event) : ∀ g : Game.t,
  square (Game.board g) → Game.gsize g ≠ 1 →
  ∃ g' effs, Game.update g events = Some (g', effs).
Proof.
  induction events as [|[col row| | |] events IH]; intros g Hsq Hsize;
    cbn [Game.update].
  - by eexists _, _.
  - destruct (handle_click_total g col row Hsq Hsize) as (g1 & e1 & Hclick).
    rewrite Hclick. cbn [mbind option_bind fst snd].
    destruct (handle_click_inv g g1 col row e1 Hsq Hclick) as (Hsq1 & _ & Hs1 & _).
    destruct (IH g1 Hsq1) as (g2 & e2 & ->); [congruence|]. by eexists _, _.
  - by eexists _, _.
  - destruct (proj2 (pass_move_spec g) Hsize) as (g1 & -> & Hb & Hs & _).
    cbn [mbind option_bind fst snd].
    destruct (IH g1) as (g2 & e2 & ->); [by rewrite Hb|congruence|]. by eexists _, _.
  - by apply IH.
Qed.

(** X7. On a fresh game of any size other than 1 (at size 1 the redraw
    raises [ZeroDivisionError]), [update] processes whatever events it is
    given; the board is still [size] by [size], every cell of it holds 0, 1
    or 2, and no prisoner count is negative. *)
Theorem fresh_game_runs_keep_board (size : nat) (events : list event) :
  size ≠ 1%nat →
  ∃ g effs,
    Game.update (Game.init size) events = Some (g, effs) ∧
    square (Game.board g) ∧ length (Game.board g) = size ∧
    (∀ p, in_bounds (Game.board g) p → getitem (Game.board g) p = Some 0 ∨
          getitem (Game.board g) p = Some 1 ∨ getitem (Game.board g) p = Some 2) ∧
    ∀ k, 0 ≤ Game.prisoner_count g k.
Proof.
  intros Hsize.
  destruct (update_total events (Game.init size) (init_square size)) as (g & effs & Hupd).
  { simpl. lia. }
  destruct (update_inv events (Game.init size) g effs (init_square size) Hupd)
    as (Hsq & Hlen & _ & Hmono & Hok).
  exists g, effs. split; [done|]. split; [done|]. split; [|split].
  - rewrite Hlen. simpl. unfold np_zeros. by rewrite length_replicate.
  - apply Hok. intros p Hp. left. by apply np_zeros_getitem.
  - intros k. specialize (Hmono k). unfold Game.prisoner_count in Hmono at 1.
    simpl in Hmono. by rewrite lookup_empty in Hmono.
Qed.

Lemma fresh_game_runs_keep_board_witness :
  2%nat ≠ 1%nat ∧
  ∃ g effs,
    Game.update (Game.init 2) [MOUSEBUTTONUP 0 0; KEYUP_p; MOUSEBUTTONUP 5 0]
      = Some (g, effs) ∧
    square (Game.board g) ∧ length (Game.board g) = 2%nat.
Proof.
  split; [done|].
  destruct (fresh_game_runs_keep_board 2 [MOUSEBUTTONUP 0 0; KEYUP_p; MOUSEBUTTONUP 5 0])
    as (g & effs & Hupd & Hsq & Hlen & _); [done|].
  by exists g, effs.
Defined.

(** X8. No event makes a prisoner count go down: after any run of [update]
    on a square board each colour's count is at least what it was. *)
Theorem prisoners_never_decrease (g g' : Game.t) (events : list event) effs :
  square (Game.board g) → Game.update g events = Some (g', effs) →
  ∀ k, Game.prisoner_count g k ≤ Game.prisoner_count g' k.
Proof.
  intros Hsq Hupd. by destruct (update_inv events g g' effs Hsq Hupd) as (_ & _ & _ & Hmono & _).
Qed.

Lemma prisoners_never_decrease_witness :
  square (Game.board (Game.mk [[1; 2]; [0; 1]] 2 true {["white"%string := 3]})) ∧
  ∃ g' effs,
    Game.update (Game.mk [[1; 2]; [0; 1]] 2 true {["white"%string := 3]})
      [MOUSEBUTTONUP 1 0; KEYUP_p] = Some (g', effs) ∧
    ∀ k, Game.prisoner_count (Game.mk [[1; 2]; [0; 1]] 2 true {["white"%string := 3]}) k
         ≤ Game.prisoner_count g' k.
Proof.
  split; [by repeat constructor|]. eexists _, _. split; [vm_compute; reflexivity|].
  eapply (prisoners_never_decrease _ _ [MOUSEBUTTONUP 1 0; KEYUP_p]);
    [by repeat constructor|vm_compute; reflexivity].
Defined.

(** X9. A winner stays: once [check_winner] names a winner on a square
    board it names one after every later run of [update], and once it names
    Black it names Black. *)
Theorem winner_is_kept (g g' : Game.t) (events : list event) effs :
  square (Game.board g) → Game.update g events = Some (g', effs) →
  ((Game.check_winner g).1 ≠ None → (Game.check_winner g').1 ≠ None) ∧
  ((Game.check_winner g).1 = Some "Black"%string →
   (Game.check_winner g').1 = Some "Black"%string).
Proof.
  intros Hsq Hupd. destruct (update_inv events g g' effs Hsq Hupd) as (_ & _ & _ & Hmono & _).
  pose proof (Hmono "black"%string). pose proof (Hmono "white"%string).
  rewrite !check_winner_fst. split; repeat case_bool_decide; try done; lia.
Qed.

Lemma winner_is_kept_witness :
  square (Game.board (Game.mk [[1; 2]; [0; 1]] 2 true {["white"%string := 3]})) ∧
  ∃ g' effs,
    Game.update (Game.mk [[1; 2]; [0; 1]] 2 true {["white"%string := 3]})
      [MOUSEBUTTONUP 1 0; KEYUP_p] = Some (g', effs) ∧
    (Game.check_winner g').1 ≠ None.
Proof.
  split; [by repeat constructor|]. eexists _, _. split; [vm_compute; reflexivity|].
  refine (proj1 (winner_is_kept
                   (Game.mk [[1; 2]; [0; 1]] 2 true {["white"%string := 3]})
                   _ [MOUSEBUTTONUP 1 0; KEYUP_p] _ _ _) _);
    [by repeat constructor|vm_compute; reflexivity|by vm_compute].
Defined.

(** ** Who is declared the winner *)

(** X10. While neither player holds a prisoner, a move on a square board
    of a size other than 1 shows the winner message exactly when it takes
    stones off the board, and the winner it shows is the player who moved:
    after the sound come the message, if the opponent has fewer stones than
    before, and the redrawn board. *)
Theorem first_capture_wins (g : Game.t) (col row : Z) :
  square (Game.board g) → holds (Game.board g) (col, row) 0 → Game.gsize g ≠ 1 →
  Game.prisoner_count g "black" = 0 → Game.prisoner_count g "white" = 0 →
  ∃ g' n,
    Z.of_nat (length (np_where (Game.board g) (color_code (Game.other_color g))))
      = Z.of_nat (length (np_where (Game.board g') (color_code (Game.other_color g)))) + n ∧
    Game.handle_click g col row =
      Some (g', PlaySound ::
                (if bool_decide (n >= 1)
                 then [ShowWinner (if Game.black_turn g then "Black" else "White")]
                 else []) ++
                [Draw (Game.board g') (Game.prisoner_count g' "black")
                      (Game.prisoner_count g' "white")]).
Proof.
  intros Hsq Hholds Hsize Hblack Hwhite.
  destruct (handle_click_valid g col row Hsq Hholds Hsize)
    as (g1 & g' & Hplace & Hclick & Hb & Ht & _ & Hk).
  destruct (place_stone_count g col row Hsq Hholds)
    as (g1' & k & Hplace' & Hself & Hoth & Hopp & _).
  rewrite Hplace in Hplace'. injection Hplace' as <-.
  exists g', (Z.of_nat k). rewrite Hb, !Hk. split; [lia|].
  rewrite Hclick. do 3 f_equal. rewrite check_winner_fst.
  unfold Game.self_color, Game.other_color, WINNING_SCORE in *.
  destruct (Game.black_turn g).
  - rewrite Hself, Hblack, (Hoth "white"%string) by done. rewrite Hwhite.
    repeat case_bool_decide; try done; lia.
  - rewrite Hself, Hwhite, (Hoth "black"%string) by done. rewrite Hblack.
    repeat case_bool_decide; try done; lia.
Qed.

Lemma first_capture_wins_witness :
  square (Game.board (Game.mk [[1; 2]; [0; 1]] 2 true ∅)) ∧
  holds [[1; 2]; [0; 1]] (1, 0) 0 ∧
  Game.gsize (Game.mk [[1; 2]; [0; 1]] 2 true ∅) ≠ 1 ∧
  Game.prisoner_count (Game.mk [[1; 2]; [0; 1]] 2 true ∅) "black" = 0 ∧
  Game.prisoner_count (Game.mk [[1; 2]; [0; 1]] 2 true ∅) "white" = 0 ∧
  ∃ g' n,
    Z.of_nat (length (np_where [[1; 2]; [0; 1]] 2))
      = Z.of_nat (length (np_where (Game.board g') 2)) + n ∧
    Game.handle_click (Game.mk [[1; 2]; [0; 1]] 2 true ∅) 1 0 =
      Some (g', PlaySound ::
                (if bool_decide (n >= 1) then [ShowWinner "Black"] else []) ++
                [Draw (Game.board g') (Game.prisoner_count g' "black")
                      (Game.prisoner_count g' "white")]).
Proof.
  assert (holds [[1; 2]; [0; 1]] (1, 0) 0) as Hholds.
  { split; [unfold in_bounds, shape0; simpl; lia|reflexivity]. }
  split; [by repeat constructor|]. split; [exact Hholds|]. split; [done|].
  split; [reflexivity|]. split; [reflexivity|].
  apply (first_capture_wins (Game.mk [[1; 2]; [0; 1]] 2 true ∅) 1 0);
    [by repeat constructor|exact Hholds|done|reflexivity|reflexivity].
Defined.

(** ** Passing and runs of events *)

(** X11. At size 1 a pass raises [ZeroDivisionError] (in the redraw, after
    the turn was changed).  At any other size a pass gives the turn to the
    other player, redraws, and changes neither the board nor a prisoner
    count; a second pass then goes through as well and gives the turn
    back. *)
Theorem pass_toggles_turn_only (g : Game.t) :
  (Game.gsize g = 1 → Game.pass_move g = None) ∧
  (Game.gsize g ≠ 1 →
   ∃ g1 g2 effs2,
     Game.pass_move g
     = Some (g1, [Draw (Game.board g) (Game.prisoner_count g "black")
                       (Game.prisoner_count g "white")]) ∧
     Game.black_turn g1 = negb (Game.black_turn g) ∧
     Game.board g1 = Game.board g ∧
     (∀ k, Game.prisoner_count g1 k = Game.prisoner_count g k) ∧
     Game.pass_move g1 = Some (g2, effs2) ∧
     Game.black_turn g2 = Game.black_turn g).
Proof.
  destruct (pass_move_spec g) as [Hraise Hret]. split; [done|]. intros Hsize.
  destruct (Hret Hsize) as (g1 & Hpass & Hb & Hs & Ht & Hk).
  destruct (proj2 (pass_move_spec g1)) as (g2 & Hpass2 & _ & _ & Ht2 & _);
    [congruence|].
  exists g1, g2. eexists. split; [done|]. split; [done|]. split; [done|].
  split; [done|]. split; [exact Hpass2|]. rewrite Ht2, Ht. apply negb_involutive.
Qed.

(** X12. Events handed to [update] in two portions have the effect of the
    whole list, as long as the first portion holds no [QUIT]: the second
    portion starts from the state the first one leaves, and the effects
    follow one another. *)
Theorem update_app (events1 events2 : list event) : ∀ g : Game.t,
  QUIT ∉ events1 →
  Game.update g (events1 ++ events2) =
  r1 ← Game.update g events1;
  r2 ← Game.update r1.1 events2;
  Some (r2.1, r1.2 ++ r2.2).
Proof.
  induction events1 as [|[col row| | |] events1 IH]; intros g Hquit;
    cbn [app Game.update].
  - cbn [mbind option_bind fst snd app]. by destruct (Game.update g events2) as [[??]|].
  - destruct (Game.handle_click g col row) as [[g1 e1]|]; [|done].
    cbn [mbind option_bind fst snd].
    rewrite IH by (intros Hin; apply Hquit; by right).
    destruct (Game.update g1 events1) as [[g2 e2]|]; [|done].
    cbn [mbind option_bind fst snd].
    destruct (Game.update g2 events2) as [[g3 e3]|]; [|done].
    cbn [mbind option_bind fst snd]. by rewrite app_assoc.
  - destruct Hquit. left.
  - destruct (Game.pass_move g) as [[g1 e1]|]; [|done].
    cbn [mbind option_bind fst snd].
    rewrite IH by (intros Hin; apply Hquit; by right).
    destruct (Game.update g1 events1) as [[g2 e2]|]; [|done].
    cbn [mbind option_bind fst snd].
    destruct (Game.update g2 events2) as [[g3 e3]|]; [|done].
    cbn [mbind option_bind fst snd]. by rewrite app_assoc.
  - apply IH. intros Hin. apply Hquit. by right.
Qed.

Lemma update_app_witness :
  (QUIT ∉ [MOUSEBUTTONUP 0 0; KEYUP_p]) ∧
  Game.update (Game.init 2) ([MOUSEBUTTONUP 0 0; KEYUP_p] ++ [MOUSEBUTTONUP 1 1]) =
  r1 ← Game.update (Game.init 2) [MOUSEBUTTONUP 0 0; KEYUP_p];
  r2 ← Game.update r1.1 [MOUSEBUTTONUP 1 1];
  Some (r2.1, r1.2 ++ r2.2).
Proof.
  assert (QUIT ∉ [MOUSEBUTTONUP 0 0; KEYUP_p]) as Hquit.
  { intros Hin. apply elem_of_cons in Hin as [Heq|Hin]; [discriminate|].
    apply elem_of_cons in Hin as [Heq|Hin]; [discriminate|]. by apply elem_of_nil in Hin. }
  split; [exact Hquit|].
  apply (update_app [MOUSEBUTTONUP 0 0; KEYUP_p] [MOUSEBUTTONUP 1 1] (Game.init 2) Hquit).
Defined.

(** ** The order of iteration does not matter *)

(** X13. On a square board the answer of [has_no_liberties] for positions
    of the grid depends on which positions are handed in only, not on their
    order nor on repetitions; so it does not matter in which order a set is
    iterated. *)
Theorem has_no_liberties_order_free (b : ndarray) (group group' : list pos) :
  square b → Forall (in_bounds b) group → (∀ p, p ∈ group ↔ p ∈ group') →
  has_no_liberties b group = has_no_liberties b group'.
Proof.
  intros Hsq Hin Hsame.
  assert (Forall (in_bounds b) group') as Hin'.
  { apply Forall_forall. intros p Hp%Hsame. by apply (proj1 (Forall_forall _ _) Hin). }
  destruct (has_no_liberties_spec b group Hsq Hin) as (r & -> & Hr).
  destruct (has_no_liberties_spec b group' Hsq Hin') as (r' & -> & Hr').
  f_equal. eapply bool_iff_eq; [exact Hr|exact Hr'|].
  split; intros H p Hp; apply H; by apply Hsame.
Qed.

Lemma has_no_liberties_order_free_witness :
  square [[1; 2]; [2; 0]] ∧ Forall (in_bounds [[1; 2]; [2; 0]]) [(0, 0); (0, 1)] ∧
  (∀ p, p ∈ [(0, 0); (0, 1)] ↔ p ∈ [(0, 1); (0, 0); (0, 1)]) ∧
  has_no_liberties [[1; 2]; [2; 0]] [(0, 0); (0, 1)]
  = has_no_liberties [[1; 2]; [2; 0]] [(0, 1); (0, 0); (0, 1)].
Proof.
  assert (∀ p : pos, p ∈ [(0, 0); (0, 1)] ↔ p ∈ [(0, 1); (0, 0); (0, 1)]) as Hsame.
  { intros p. rewrite !elem_of_cons, !elem_of_nil. tauto. }
  assert (Forall (in_bounds [[1; 2]; [2; 0]]) [(0, 0); (0, 1)]) as Hin.
  { repeat constructor; unfold in_bounds, shape0; simpl; lia. }
  split; [by repeat constructor|]. split; [exact Hin|]. split; [exact Hsame|].
  apply (has_no_liberties_order_free [[1; 2]; [2; 0]] [(0, 0); (0, 1)]
           [(0, 1); (0, 0); (0, 1)]); [by repeat constructor|exact Hin|exact Hsame].
Defined.

(** Two square boards of one shape with the same cells are the same. *)
Lemma board_ext (b1 b2 : ndarray) :
  square b1 → square b2 → length b1 = length b2 →
  (∀ p, in_bounds b1 p → getitem b1 p = getitem b2 p) → b1 = b2.
Proof.
  intros Hsq1 Hsq2 Hlen Hcells. apply list_eq. intros i.
  destruct (decide (i < length b1)%nat) as [Hi|Hi].
  - destruct (lookup_lt_is_Some_2 b1 i Hi) as [r1 Hr1].
    destruct (lookup_lt_is_Some_2 b2 i ltac:(lia)) as [r2 Hr2].
    rewrite Hr1, Hr2. f_equal.
    pose proof (square_row b1 i r1 Hsq1 Hr1) as Hl1.
    pose proof (square_row b2 i r2 Hsq2 Hr2) as Hl2.
    apply list_eq. intros j.
    destruct (decide (j < length b1)%nat) as [Hj|Hj].
    + assert (in_bounds b1 (Z.of_nat i, Z.of_nat j)) as Hin
        by (unfold in_bounds, shape0; simpl; lia).
      assert (in_bounds b2 (Z.of_nat i, Z.of_nat j)) as Hin2
        by (by apply (in_bounds_shape b1 b2)).
      pose proof (Hcells _ Hin) as Heq.
      destruct (getitem_in_bounds b1 _ Hsq1 Hin) as (r1' & Hr1' & Hg1 & _).
      destruct (getitem_in_bounds b2 _ Hsq2 Hin2) as (r2' & Hr2' & Hg2 & _).
      simpl in Hr1', Hr2', Hg1, Hg2. rewrite Nat2Z.id in Hr1', Hr2', Hg1, Hg2.
      congruence.
    + rewrite !lookup_ge_None_2 by lia. done.
  - rewrite !lookup_ge_None_2 by lia. done.
Qed.

(** X14. The sweep does not depend on the order in which the groups are
    listed: run over any rearrangement of the groups of the colour, the loop
    of [capture_stones] returns the same board and the same count. *)
Theorem capture_order_free (b : ndarray) (color : string) (groups : list (gset pos)) :
  square b → groups ≡ₚ get_stone_groups b color →
  Game.capture_loop b groups 0
  = Game.capture_loop b (get_stone_groups b color) 0.
Proof.
  intros Hsq Hperm.
  assert (∀ group, group ∈ groups ↔ group ∈ get_stone_groups b color) as Hmem
    by (intros group; by rewrite Hperm).
  assert (NoDup groups) as Hnd by (rewrite Hperm; apply groups_NoDup).
  rewrite (capture_loop_snapshot b color Hsq groups b 0); try done.
  2:{ intros group p Hg%Hmem. by apply group_stone. }
  2:{ intros group p q Hg%Hmem. by apply group_closed. }
  2:{ intros i j c1 c2 Hi Hj Hne p Hp1 Hp2.
      assert (c1 = c2) as <-.
      { apply (groups_equal_or_disjoint b color c1 c2 p); try done;
          apply Hmem; by eapply list_elem_of_lookup_2. }
      apply Hne. by apply (proj1 (NoDup_alt groups) Hnd i j c1). }
  destruct (dead_groups_spec b groups Hsq) as (ds' & Hds' & Hiff').
  { intros group p Hg%Hmem Hp. by destruct (group_stone b color group p Hg Hp). }
  destruct (capture_loop_spec b color Hsq) as (ds & b' & Hds & -> & Hsq' & Hlen & Hiff & Hc).
  destruct (dead_cells_NoDup b color ds Hds) as [Hndd Hstones].
  rewrite Hds'. cbn [mbind option_bind].
  assert (∀ group, group ∈ ds' ↔ group ∈ ds) as Hdmem.
  { intros group. rewrite Hiff', Hiff, Hmem. done. }
  assert (∀ p, p ∈ ds' ≫= elements ↔ p ∈ ds ≫= elements) as Hcmem.
  { intros p. rewrite !list_elem_of_bind. split; intros (d & ? & ?); exists d;
      (split; [done|]); by apply Hdmem. }
  destruct (remove_loop_spec (ds' ≫= elements) b 0 Hsq) as (b'' & -> & Hsq'' & Hlen'' & Hc'').
  { apply Forall_forall. intros p Hp%Hcmem. by destruct (Hstones p Hp). }
  assert (NoDup (ds' ≫= elements)) as Hndd'.
  { apply NoDup_bind.
    - intros d1 d2 p Hd1%Hdmem Hd2%Hdmem Hp1%elem_of_elements Hp2%elem_of_elements.
      apply Hiff in Hd1 as [Hd1 _]. apply Hiff in Hd2 as [Hd2 _].
      by apply (groups_equal_or_disjoint b color d1 d2 p).
    - intros d _. apply NoDup_elements.
    - eapply sublist_NoDup; [exact Hnd|]. by apply (dead_groups_sublist b). }
  f_equal. f_equal.
  - apply board_ext; [done|done|congruence|].
    intros p Hp. apply (in_bounds_shape b b'') in Hp; [|done].
    rewrite Hc'', Hc by done.
    destruct (decide (p ∈ ds' ≫= elements)) as [H1|H1],
             (decide (p ∈ ds ≫= elements)) as [H2|H2]; try done.
    + destruct H2. by apply Hcmem.
    + destruct H1. by apply Hcmem.
  - rewrite Z.add_0_l. f_equal. apply Permutation_length.
    by apply NoDup_Permutation.
Qed.

Lemma capture_order_free_witness :
  square [[2; 1; 2]; [1; 0; 1]; [0; 0; 0]] ∧
  reverse (get_stone_groups [[2; 1; 2]; [1; 0; 1]; [0; 0; 0]] "white")
    ≡ₚ get_stone_groups [[2; 1; 2]; [1; 0; 1]; [0; 0; 0]] "white" ∧
  Game.capture_loop [[2; 1; 2]; [1; 0; 1]; [0; 0; 0]]
    (reverse (get_stone_groups [[2; 1; 2]; [1; 0; 1]; [0; 0; 0]] "white")) 0
  = Game.capture_loop [[2; 1; 2]; [1; 0; 1]; [0; 0; 0]]
      (get_stone_groups [[2; 1; 2]; [1; 0; 1]; [0; 0; 0]] "white") 0.
Proof.
  split; [by repeat constructor|]. split; [apply reverse_Permutation|].
  apply (capture_order_free [[2; 1; 2]; [1; 0; 1]; [0; 0; 0]] "white");
    [by repeat constructor|apply reverse_Permutation].
Defined.

(** * Properties of the registration form *)

Lemma substring_prefix (s t : string) :
  String.substring 0 (String.length s) (String.append s t) = s.
Proof.
  induction s as [|a s IH]; simpl; [by destruct t|]. by rewrite IH.
Qed.

Lemma drop_last_append (s : string) (c : Ascii.ascii) :
  Registration.drop_last (String.append s (String c EmptyString)) = s.
Proof.
  unfold Registration.drop_last.
  assert (String.length (String.append s (String c EmptyString)) = S (String.length s))
    as -> by (induction s as [|a s IH]; simpl; [done|by rewrite IH]).
  simpl. rewrite Nat.sub_0_r. apply substring_prefix.
Qed.

Lemma truthy_nonempty (s : string) : Registration.truthy s = true ↔ s ≠ EmptyString.
Proof. by destruct s. Qed.

(** One key: once the form has stopped running it stays so, once the
    nickname field is left the nickname is fixed, and the form stops only
    with the success screen, shown for a nickname and a password that are
    not empty. *)
Lemma keydown_inv (f : Registration.form) k u :
  (Registration.running f = false →
   Registration.running (Registration.keydown f k u).1 = false) ∧
  ((Registration.input_active f).1 = false →
   (Registration.input_active (Registration.keydown f k u).1).1 = false ∧
   Registration.username (Registration.keydown f k u).1 = Registration.username f) ∧
  (Registration.running f = true →
   Registration.running (Registration.keydown f k u).1 = false →
   (Registration.input_active f).1 = false ∧
   Registration.username f ≠ EmptyString ∧ Registration.password f ≠ EmptyString ∧
   Registration.ShowSuccess ∈ (Registration.keydown f k u).2).
Proof.
  unfold Registration.keydown.
  destruct f as [un pw [a0 a1] run]; simpl.
  destruct a0, a1, k; simpl; try (split; [done|split; [done|intros; congruence]]).
  destruct (Registration.truthy un) eqn:Hu, (Registration.truthy pw) eqn:Hp; simpl;
    try (split; [done|split; [done|intros; congruence]]).
  split; [done|]. split; [done|]. intros _ _.
  split; [done|]. split; [by apply truthy_nonempty|]. split; [by apply truthy_nonempty|].
  left.
Qed.

Lemma for_events_inv (events : list Registration.event) : ∀ f,
  form_ok f →
  form_ok (Registration.for_events f events).1.1 ∧
  (Registration.running f = true →
   Registration.running (Registration.for_events f events).1.1 = false →
   Registration.ShowSuccess ∈ (Registration.for_events f events).1.2).
Proof.
  induction events as [|[|k u|] events IH]; intros f Hok; cbn [Registration.for_events].
  - split; [done|]. simpl. congruence.
  - split; [done|]. simpl. congruence.
  - destruct (keydown_inv f k u) as (Hstop & Hfix & Hsucc).
    set (r := Registration.keydown f k u) in *.
    assert (form_ok r.1) as Hok1.
    { intros Hrun. destruct (Registration.running f) eqn:Hf.
      - destruct (Hsucc eq_refl Hrun) as (Ha & Hu & _ & _).
        destruct (Hfix Ha) as [Ha' Hu']. split; [done|]. by rewrite Hu'.
      - destruct (Hok Hf) as [Ha Hu].
        destruct (Hfix Ha) as [Ha' Hu']. split; [done|]. by rewrite Hu'. }
    destruct (IH r.1 Hok1) as [Hok2 Hshow]. cbn [fst snd]. split; [done|].
    intros Hf Hend. apply elem_of_app.
    destruct (Registration.running r.1) eqn:Hr.
    + right. by apply Hshow.
    + left. by destruct (Hsucc Hf eq_refl) as (_ & _ & _ & ?).
  - by apply IH.
Qed.

Lemma while_running_success (batches : list (list Registration.event)) : ∀ f f' effs,
  Registration.running f = true →
  Registration.while_running f batches = (Some true, f', effs) →
  Registration.username f' ≠ EmptyString ∧ Registration.ShowSuccess ∈ effs.
Proof.
  induction batches as [|events batches IH]; intros f f' effs Hrun;
    cbn [Registration.while_running]; rewrite Hrun; [done|].
  destruct (for_events_inv events f) as [Hok Hshow]; [intros ?; congruence|].
  destruct (Registration.for_events f events) as [[f1 e1] q]. cbn [fst snd] in *.
  destruct q; [done|].
  destruct (Registration.running f1) eqn:Hrun1.
  - destruct (Registration.while_running f1 batches) as [[r f2] e2] eqn:Hw.
    cbn [fst snd]. intros [= -> -> <-].
    destruct (IH f1 f' e2 Hrun1 Hw) as [Hu Hs]. split; [done|].
    apply elem_of_app. right. by right.
  - destruct batches; cbn [Registration.while_running]; rewrite Hrun1;
      cbn [fst snd]; intros [= <- <-];
      (split; [by destruct (Hok Hrun1)|]);
      apply elem_of_app; left; by apply Hshow.
Qed.

(** X15. [registration] returns [True] only after the success screen was
    shown, and the nickname it was given is then not empty. *)
Theorem registration_success_needs_username
    (batches : list (list Registration.event)) (f : Registration.form)
    (effs : list Registration.effect) :
  Registration.registration batches = (Some true, f, effs) →
  Registration.username f ≠ EmptyString ∧ Registration.ShowSuccess ∈ effs.
Proof. by apply while_running_success. Qed.

Lemma registration_success_needs_username_witness :
  ∃ f effs,
    Registration.registration
      [[Registration.KEYDOWN Registration.K_other "a";
        Registration.KEYDOWN Registration.K_RETURN ""];
       [Registration.KEYDOWN Registration.K_other "b";
        Registration.KEYDOWN Registration.K_RETURN ""]] = (Some true, f, effs) ∧
    Registration.username f ≠ EmptyString ∧ Registration.ShowSuccess ∈ effs.
Proof.
  eexists _, _. split; [vm_compute; reflexivity|].
  apply (registration_success_needs_username
           [[Registration.KEYDOWN Registration.K_other "a";
             Registration.KEYDOWN Registration.K_RETURN ""];
            [Registration.KEYDOWN Registration.K_other "b";
             Registration.KEYDOWN Registration.K_RETURN ""]]).
  vm_compute. reflexivity.
Defined.

Lemma keydown_stuck (f : Registration.form) k u :
  form_stuck f → form_stuck (Registration.keydown f k u).1.
Proof.
  unfold form_stuck, Registration.keydown.
  destruct f as [un pw [a0 a1] run]; simpl. intros (-> & -> & ->).
  by destruct a1, k.
Qed.

Lemma for_events_stuck (events : list Registration.event) : ∀ f,
  form_stuck f → form_stuck (Registration.for_events f events).1.1.
Proof.
  induction events as [|[|k u|] events IH]; intros f Hf; cbn [Registration.for_events];
    [done|done| |by apply IH].
  cbn [fst snd]. by apply IH, keydown_stuck.
Qed.

Lemma while_running_stuck (batches : list (list Registration.event)) : ∀ f,
  form_stuck f → (Registration.while_running f batches).1.1 ≠ Some true.
Proof.
  induction batches as [|events batches IH]; intros f Hf;
    pose proof Hf as (_ & _ & Hrun); cbn [Registration.while_running]; rewrite Hrun;
    [done|].
  pose proof (for_events_stuck events f Hf) as Hf1.
  destruct (Registration.for_events f events) as [[f1 e1] q]. cbn [fst snd] in *.
  destruct q; [done|]. cbn [fst snd]. by apply IH.
Qed.

Lemma for_events_no_key (events : list Registration.event) : ∀ f,
  (∀ k u, Registration.KEYDOWN k u ∉ events) →
  (Registration.for_events f events).1.1 = f.
Proof.
  induction events as [|[|k u|] events IH]; intros f Hno; cbn [Registration.for_events];
    [done|done| |].
  - destruct (Hno k u). left.
  - apply IH. intros k u Hin. apply (Hno k u). by right.
Qed.

(** Events without a key in front of an Enter pressed in the empty nickname
    field: the batch ends with a [QUIT] met or with the form stuck. *)
Lemma for_events_enter_first (events1 events2 : list Registration.event)
    (unicode : string) (f : Registration.form) :
  (∀ k u, Registration.KEYDOWN k u ∉ events1) →
  (Registration.input_active f).1 = true → Registration.username f = EmptyString →
  Registration.running f = true →
  (Registration.for_events f
     (events1 ++ Registration.KEYDOWN Registration.K_RETURN unicode :: events2)).2 = true ∨
  form_stuck
    (Registration.for_events f
       (events1 ++ Registration.KEYDOWN Registration.K_RETURN unicode :: events2)).1.1.
Proof.
  intros Hno Hact Hname Hrun.
  induction events1 as [|[|k u|] events1 IH]; cbn [app Registration.for_events].
  - right. cbn [fst snd]. apply for_events_stuck.
    unfold form_stuck, Registration.keydown. rewrite Hact. by simpl.
  - by left.
  - destruct (Hno k u). left.
  - apply IH. intros k u Hin. apply (Hno k u). by right.
Qed.

(** X16. If the first key pressed is Enter, the nickname being still empty,
    the form has no way to succeed: whatever batches without a key came
    before, whatever other events stand before that Enter in its batch and
    whatever events follow, [registration] does not return [True]. *)
Theorem registration_empty_username_never_succeeds
    (before : list (list Registration.event))
    (events1 events2 : list Registration.event) (unicode : string)
    (after : list (list Registration.event)) :
  (∀ events k u, events ∈ before → Registration.KEYDOWN k u ∉ events) →
  (∀ k u, Registration.KEYDOWN k u ∉ events1) →
  (Registration.registration
     (before ++
      (events1 ++ Registration.KEYDOWN Registration.K_RETURN unicode :: events2)
      :: after)).1.1
  ≠ Some true.
Proof.
  intros Hbefore Hno. unfold Registration.registration.
  assert ((Registration.input_active Registration.init).1 = true ∧
          Registration.username Registration.init = EmptyString ∧
          Registration.running Registration.init = true) as Hinit by done.
  revert Hinit. generalize Registration.init. intros f (Hact & Hname & Hrun).
  induction before as [|events before IH]; cbn [app Registration.while_running];
    rewrite Hrun.
  - destruct (for_events_enter_first events1 events2 unicode f Hno Hact Hname Hrun)
      as [Hquit|Hstuck].
    + by rewrite Hquit.
    + destruct (Registration.for_events f _) as [[f1 e1] q]. cbn [fst snd] in *.
      destruct q; [done|]. cbn [fst snd]. by apply while_running_stuck.
  - assert (∀ k u, Registration.KEYDOWN k u ∉ events) as Hev.
    { intros k u. apply Hbefore. left. }
    pose proof (for_events_no_key events f Hev) as Hsame.
    destruct (Registration.for_events f events) as [[f1 e1] q]. cbn [fst snd] in *.
    subst f1. destruct q; [done|]. cbn [fst snd]. apply IH.
    intros evs k u Hin. apply Hbefore. by right.
Qed.

Lemma registration_empty_username_never_succeeds_witness :
  (∀ events k u, events ∈ [[]; [Registration.OtherEvent]] →
                 Registration.KEYDOWN k u ∉ events) ∧
  (∀ k u, Registration.KEYDOWN k u ∉ [Registration.OtherEvent]) ∧
  (Registration.registration
     ([[]; [Registration.OtherEvent]] ++
      ([Registration.OtherEvent] ++
       Registration.KEYDOWN Registration.K_RETURN "" ::
       [Registration.KEYDOWN Registration.K_other "a"])
      :: [[Registration.KEYDOWN Registration.K_other "b";
           Registration.KEYDOWN Registration.K_RETURN ""]])).1.1
  ≠ Some true.
Proof.
  assert (∀ k u, Registration.KEYDOWN k u ∉ [Registration.OtherEvent]) as Hno.
  { intros k u Hin. apply elem_of_cons in Hin as [Heq|Hin]; [discriminate|].
    by apply elem_of_nil in Hin. }
  assert (∀ events k u, events ∈ [[]; [Registration.OtherEvent]] →
                        Registration.KEYDOWN k u ∉ events) as Hbefore.
  { intros events k u Hev. apply elem_of_cons in Hev as [->|Hev].
    - apply not_elem_of_nil.
    - apply elem_of_cons in Hev as [->|Hev]; [apply Hno|by apply elem_of_nil in Hev]. }
  split; [exact Hbefore|]. split; [exact Hno|].
  apply (registration_empty_username_never_succeeds
           [[]; [Registration.OtherEvent]] [Registration.OtherEvent]
           [Registration.KEYDOWN Registration.K_other "a"] ""
           [[Registration.KEYDOWN Registration.K_other "b";
             Registration.KEYDOWN Registration.K_RETURN ""]] Hbefore Hno).
Defined.

Lemma for_events_quit (events : list Registration.event) : ∀ f,
  Registration.QUIT ∈ events → (Registration.for_events f events).2 = true.
Proof.
  induction events as [|[|k u|] events IH]; intros f Hin; cbn [Registration.for_events].
  - by apply elem_of_nil in Hin.
  - done.
  - cbn [snd]. apply IH. by apply elem_of_cons in Hin as [|].
  - apply IH. by apply elem_of_cons in Hin as [|].
Qed.

(** X17. A [QUIT] among the first events makes [registration] return
    [False], also when keys handled before it in the same batch had
    completed the form and brought up the success screen. *)
Theorem registration_quit_returns_false
    (events : list Registration.event) (batches : list (list Registration.event)) :
  Registration.QUIT ∈ events →
  (Registration.registration (events :: batches)).1.1 = Some false.
Proof.
  intros Hquit. unfold Registration.registration.
  cbn [Registration.while_running Registration.init Registration.running].
  by rewrite (for_events_quit events _ Hquit).
Qed.

Lemma registration_quit_returns_false_witness :
  Registration.QUIT ∈
    [Registration.KEYDOWN Registration.K_other "a";
     Registration.KEYDOWN Registration.K_RETURN "";
     Registration.KEYDOWN Registration.K_other "b";
     Registration.KEYDOWN Registration.K_RETURN ""; Registration.QUIT] ∧
  (Registration.registration
     ([Registration.KEYDOWN Registration.K_other "a";
       Registration.KEYDOWN Registration.K_RETURN "";
       Registration.KEYDOWN Registration.K_other "b";
       Registration.KEYDOWN Registration.K_RETURN ""; Registration.QUIT] :: [])).1.1
  = Some false ∧
  Registration.ShowSuccess ∈
    (Registration.registration
       ([Registration.KEYDOWN Registration.K_other "a";
         Registration.KEYDOWN Registration.K_RETURN "";
         Registration.KEYDOWN Registration.K_other "b";
         Registration.KEYDOWN Registration.K_RETURN ""; Registration.QUIT] :: [])).2.
Proof.
  assert (Registration.QUIT ∈
    [Registration.KEYDOWN Registration.K_other "a";
     Registration.KEYDOWN Registration.K_RETURN "";
     Registration.KEYDOWN Registration.K_other "b";
     Registration.KEYDOWN Registration.K_RETURN ""; Registration.QUIT]) as Hquit
    by (do 4 right; left).
  split; [exact Hquit|]. split.
  - apply (registration_quit_returns_false _ [] Hquit).
  - vm_compute. left.
Defined.

(** X18. In either field, typing one character and then pressing Backspace
    leaves the form as it was, and Backspace on an empty field leaves it
    empty. *)
Theorem type_then_backspace (f : Registration.form) (c : Ascii.ascii) (unicode : string) :
  (Registration.keydown
     (Registration.keydown f Registration.K_other (String c EmptyString)).1
     Registration.K_BACKSPACE unicode).1 = f ∧
  Registration.drop_last EmptyString = EmptyString.
Proof.
  split; [|done]. unfold Registration.keydown.
  destruct f as [un pw [a0 a1] run]; simpl.
  destruct a0, a1; simpl; by rewrite ?drop_last_append.
Qed.

(** * A move seen from the board *)

(** X19. On a board of a size other than 1, a click on an empty position of
    the grid puts the mover's stone there and changes no other cell, except
    that stones of the opponent may become empty cells: the mover's other
    stones and the empty cells are as before. *)
Theorem move_frame (g : Game.t) (col row : Z) :
  square (Game.board g) → holds (Game.board g) (col, row) 0 → Game.gsize g ≠ 1 →
  ∃ g' effs,
    Game.handle_click g col row = Some (g', effs) ∧
    length (Game.board g') = length (Game.board g) ∧
    getitem (Game.board g') (col, row) = Some (Game.player g) ∧
    ∀ q, in_bounds (Game.board g) q → q ≠ (col, row) →
         getitem (Game.board g') q = getitem (Game.board g) q ∨
         (getitem (Game.board g) q = Some (color_code (Game.other_color g)) ∧
          getitem (Game.board g') q = Some 0).
Proof.
  intros Hsq Hholds Hsize. pose proof Hholds as [Hin _].
  destruct (handle_click_valid g col row Hsq Hholds Hsize)
    as (g1 & g' & Hplace & Hclick & Hb & _).
  destruct (place_stone_spec g col row Hsq Hin)
    as (b1 & ds & b' & _ & _ & Hlen1 & Hget1 & Hother1 & _ & _ & Hlen' & Hiff & Hc & Hplace').
  rewrite Hplace in Hplace'. injection Hplace' as Hg1.
  assert (Game.board g1 = b') as Hb1 by (by rewrite Hg1).
  destruct (place_stone_result g col row Hsq Hin) as (g1' & Hplace'' & _ & Hget & _).
  rewrite Hplace in Hplace''. injection Hplace'' as <-.
  eexists _, _. split; [exact Hclick|]. rewrite Hb. split; [congruence|].
  split; [done|]. intros q Hq Hne. rewrite Hb1.
  rewrite Hc by (by apply (in_bounds_shape (Game.board g) b1)).
  destruct (decide (q ∈ ds ≫= elements)) as [Hdead|]; [|left; by apply Hother1].
  right. split; [|done].
  apply list_elem_of_bind in Hdead as (d & Hqd%elem_of_elements & Hd).
  apply Hiff in Hd as [Hd _]. destruct (group_stone _ _ d q Hd Hqd) as [_ Hq1].
  by rewrite <- (Hother1 q Hq Hne).
Qed.

Lemma move_frame_witness :
  square (Game.board (Game.mk [[1; 2]; [0; 1]] 2 true ∅)) ∧
  holds [[1; 2]; [0; 1]] (1, 0) 0 ∧
  Game.gsize (Game.mk [[1; 2]; [0; 1]] 2 true ∅) ≠ 1 ∧
  ∃ g' effs,
    Game.handle_click (Game.mk [[1; 2]; [0; 1]] 2 true ∅) 1 0 = Some (g', effs) ∧
    length (Game.board g') = 2%nat ∧
    getitem (Game.board g') (1, 0) = Some 1.
Proof.
  assert (holds [[1; 2]; [0; 1]] (1, 0) 0) as Hholds.
  { split; [unfold in_bounds, shape0; simpl; lia|reflexivity]. }
  split; [by repeat constructor|]. split; [exact Hholds|]. split; [done|].
  destruct (move_frame (Game.mk [[1; 2]; [0; 1]] 2 true ∅) 1 0)
    as (g' & effs & Hclick & Hlen & Hget & _);
    [by repeat constructor|exact Hholds|done|].
  by exists g', effs.
Defined.

(** X20. A second click on the same intersection does nothing: after any
    click on a square board of a size other than 1, be it a move or a click
    that was turned down, the same click is turned down and leaves the state
    as it is. *)
Theorem click_twice (g : Game.t) (col row : Z) :
  square (Game.board g) → Game.gsize g ≠ 1 →
  ∃ g' effs,
    Game.handle_click g col row = Some (g', effs) ∧
    Game.handle_click g' col row = Some (g', []).
Proof.
  intros Hsq Hsize.
  destruct (game_is_valid_move_spec g col row Hsq) as (r & Hvalid & Hiff).
  destruct r.
  - pose proof (proj1 Hiff eq_refl) as Hholds. pose proof Hholds as [Hin _].
    destruct (handle_click_valid g col row Hsq Hholds Hsize)
      as (g1 & g' & Hplace & Hclick & Hb & _).
    destruct (place_stone_result g col row Hsq Hin) as (g1' & Hplace' & Hsq1 & Hget & _).
    rewrite Hplace in Hplace'. injection Hplace' as <-.
    eexists _, _. split; [exact Hclick|].
    assert (square (Game.board g')) as Hsq' by (by rewrite Hb).
    destruct (game_is_valid_move_spec g' col row Hsq') as (r' & Hvalid' & Hiff').
    unfold Game.handle_click. rewrite Hvalid'. destruct r'; [|done].
    destruct (proj1 Hiff' eq_refl) as [_ Hempty]. rewrite Hb, Hget in Hempty.
    injection Hempty as Hz. by apply player_nonzero in Hz.
  - exists g, []. unfold Game.handle_click. by rewrite Hvalid.
Qed.

Lemma click_twice_witness :
  square (Game.board (Game.init 3)) ∧ Game.gsize (Game.init 3) ≠ 1 ∧
  ∃ g' effs,
    Game.handle_click (Game.init 3) 1 1 = Some (g', effs) ∧
    Game.handle_click g' 1 1 = Some (g', []).
Proof.
  split; [apply init_square|]. split; [done|].
  apply (click_twice (Game.init 3) 1 1); [apply init_square|done].
Defined.
